(** * lstm-melody: the melody codec and the model export of [train.py]

    A shallow embedding of the pure parts of [train.py]:
    - [streamToNoteArray]     (the Melody-RNN encoder),
    - [noteArrayToDataFrame]  (the decoder's frame),
    - [noteArrayToStream]     (the decoded stream),
    - [make_training_data]    (vocabulary and training windows),
    - [compressConfig]        (the layer whitelist),
    - [get_model_for_export]  (weight packing and the exported JSON object).

    Python exceptions are values of [exn]; a function that can raise returns
    [result A].  numpy arrays and pandas columns are lists, Python integers
    are [Z], music21 times are exact rationals ([Q]). *)

From Stdlib Require Import ZArith QArith Qminmax Lia List Sorted Bool String Ascii.
From Stdlib Require Import Floats.SpecFloat.
From Stdlib Require Import OrdersEx.
From stdpp Require Import base list.
Import ListNotations.

Local Open Scope Z_scope.

(** ** Exceptions *)

Inductive exn : Set :=
| IndexError
| KeyError
| TypeError
| ValueError.

Inductive result (A : Type) : Type :=
| Ok (a : A)
| Err (e : exn).

Arguments Ok {A} a.
Arguments Err {A} e.

Definition bind {A B : Type} (m : result A) (k : A -> result B) : result B :=
  match m with
  | Ok a => k a
  | Err e => Err e
  end.

Notation "'let*' x := m 'in' k" := (bind m (fun x => k))
  (at level 10, x name, m at level 100, k at level 200).

(** ** Constants (train.py 16-22) *)

Definition MELODY_NOTE_OFF : Z := 128.
Definition MELODY_NO_EVENT : Z := 129.
Definition MELODY_SIZE : Z := 130.

(** ** numpy helpers *)

(** [np.round] on a scalar: nearest integer, ties to the even one. *)
Definition np_round (q : Q) : Z :=
  let n := Qnum q in
  let d := Z.pos (Qden q) in
  let f := n / d in
  let r := 2 * (n mod d) in
  if r <? d then f
  else if d <? r then f + 1
  else if Z.even f then f else f + 1.

(** Storing into an [int16] array keeps the low 16 bits, two's complement. *)
Definition int16 (z : Z) : Z := (z + 32768) mod 65536 - 32768.

(** [np.zeros(n, dtype=np.int16) + np.int16(v)]; a negative [n] raises
    ValueError. *)
Definition np_full (n v : Z) : result (list Z) :=
  if n <? 0 then Err ValueError else Ok (replicate (Z.to_nat n) (int16 v)).

(** [a[k] = v] on a one-dimensional [int16] array: a negative index counts
    from the end, an index outside [-len, len) raises IndexError. *)
Definition np_setitem (a : list Z) (k v : Z) : result (list Z) :=
  let len := Z.of_nat (length a) in
  if (k <? - len) || (len <=? k) then Err IndexError
  else
    let k' := if k <? 0 then k + len else k in
    Ok (<[Z.to_nat k' := int16 v]> a).

(** ** The music21 stream, as the encoder reads it *)

(** An element of [stream.flat].  A chord carries the MIDI numbers of
    [element.sortAscending().pitches], in that order.  [Other] stands for the
    elements that are neither a note nor a chord (rests, clefs, ...). *)
Inductive element : Type :=
| Note (offset quarterLength : Q) (midi : Z)
| Chord (offset quarterLength : Q) (sorted_pitches : list Z)
| Other (offset quarterLength : Q).

Definition offset (e : element) : Q :=
  match e with Note o _ _ | Chord o _ _ | Other o _ => o end.

Definition quarterLength (e : element) : Q :=
  match e with Note _ d _ | Chord _ d _ | Other _ d => d end.

(** [stream.flat.highestTime]: the largest [offset + quarterLength] of the
    elements, and [0.0] for a stream without elements. *)
Definition highestTime (stream : list element) : Q :=
  fold_right (fun e m => Qmax (offset e + quarterLength e) m) 0%Q stream.

(** A row of the data frame: the columns ['pos'], ['dur'] and ['pitch']. *)
Record row : Set := Row { pos : Z; dur : Z; pitch : Z }.

(** [l[-1]] on a Python list. *)
Definition py_last (l : list Z) : result Z :=
  match last l with
  | Some x => Ok x
  | None => Err IndexError
  end.

Definition grid : Q := 1 # 4.

(** train.py 42-49: the loop that fills [stream_list]. *)
Fixpoint extract (stream : list element) : result (list row) :=
  match stream with
  | [] => Ok []
  | e :: rest =>
      match e with
      | Note o d m =>
          let* rows := extract rest in
          Ok (Row (np_round (o / grid)) (np_round (d / grid)) m :: rows)
      | Chord o d ps =>
          let* m := py_last ps in
          let* rows := extract rest in
          Ok (Row (np_round (o / grid)) (np_round (d / grid)) m :: rows)
      | Other _ _ => extract rest
      end
  end.

(** train.py 50-52: [np.array(stream_list, dtype=np.int)] and its transposed
    rows [.T[0]], [.T[1]], [.T[2]].  An empty [stream_list] gives an array of
    shape (0,), whose transpose has no row 0: IndexError. *)
Definition columns (stream_list : list row) : result (list Z * list Z * list Z) :=
  match stream_list with
  | [] => Err IndexError
  | _ :: _ => Ok (map pos stream_list, map dur stream_list, map pitch stream_list)
  end.

(** [pd.DataFrame({'pos': .., 'dur': .., 'pitch': ..})] from three columns of
    one length. *)
Fixpoint DataFrame (cpos cdur cpitch : list Z) : list row :=
  match cpos, cdur, cpitch with
  | p :: ps, d :: ds, m :: ms => Row p d m :: DataFrame ps ds ms
  | _, _, _ => []
  end.

(** The order of [sort_values(['pos', 'pitch'], ascending=[True, False])]. *)
Definition row_le (a b : row) : bool :=
  (pos a <? pos b) || ((pos a =? pos b) && (pitch b <=? pitch a)).

Fixpoint insert_row (r : row) (l : list row) : list row :=
  match l with
  | [] => [r]
  | x :: t => if row_le r x then r :: l else x :: insert_row r t
  end.

(** The sort on several columns is stable: rows equal on both keys keep their
    order. *)
Definition sort_values (df : list row) : list row :=
  fold_right insert_row [] df.

Fixpoint drop_duplicates_from (seen : list Z) (df : list row) : list row :=
  match df with
  | [] => []
  | r :: t =>
      if existsb (Z.eqb (pos r)) seen then drop_duplicates_from seen t
      else r :: drop_duplicates_from (pos r :: seen) t
  end.

(** [df.drop_duplicates(subset=['pos'])]: the first row of each ['pos']. *)
Definition drop_duplicates (df : list row) : list row :=
  drop_duplicates_from [] df.

(** [df[df.pos == i]] *)
Definition select (df : list row) (i : Z) : list row :=
  filter (fun r => pos r = i) df.

(** train.py 62-66: the body of the loop. *)
Definition fill_tick (df : list row) (output : list Z) (i : Z) : result (list Z) :=
  match select df i with
  | [] => Ok output
  | n :: _ =>
      let* output := np_setitem output i (pitch n) in
      np_setitem output (i + dur n) MELODY_NOTE_OFF
  end.

(** [for i in range(..)]: [count] iterations left, the next one at [i]. *)
Fixpoint fill_from (df : list row) (count : nat) (i : Z) (output : list Z)
  : result (list Z) :=
  match count with
  | O => Ok output
  | S count' =>
      let* output := fill_tick df output i in
      fill_from df count' (i + 1) output
  end.

Definition total_length (stream : list element) : Z :=
  np_round (highestTime stream / grid).

(** The data frame after [sort_values] and [drop_duplicates]. *)
Definition note_frame (stream : list element) : result (list row) :=
  let* stream_list := extract stream in
  let* cols := columns stream_list in
  let '(cpos, cdur, cpitch) := cols in
  Ok (drop_duplicates (sort_values (DataFrame cpos cdur cpitch))).

Definition streamToNoteArray (stream : list element) : result (list Z) :=
  let total_length := total_length stream in
  let* df := note_frame stream in
  let* output := np_full (total_length + 1) MELODY_NO_EVENT in
  fill_from df (Z.to_nat total_length) 0 output.

(** ** The decoder's frame (train.py 69-80) *)

(** A row of the frame built from the array: its index label and the columns
    ['code'], ['offset'] and ['duration'] (line 75: a copy of the index). *)
Record note_row : Set :=
  NoteRow { index : Z; code : Z; offset_col : Z; duration : Z }.

(** [pd.DataFrame({"code": note_array})] with [offset] and [duration] set to
    [df.index]; the index of the first row of [note_array] is [k]. *)
Fixpoint frame_from (k : Z) (note_array : list Z) : list note_row :=
  match note_array with
  | [] => []
  | c :: rest => NoteRow k c k k :: frame_from (k + 1) rest
  end.

(** [Series.diff(-1)]: each entry minus the following one, NaN ([None]) for
    the last. *)
Fixpoint diff_neg1 (col : list Z) : list (option Z) :=
  match col with
  | [] => []
  | a :: t =>
      match t with
      | [] => [None]
      | b :: _ => Some (a - b) :: diff_neg1 t
      end
  end.

(** [x * -1 * 0.25] on a float column: NaN stays NaN. *)
Definition to_quarters (d : option Z) : option Q :=
  match d with
  | Some x => Some (inject_Z x * inject_Z (-1) * (1 # 4))%Q
  | None => None
  end.

(** [fillna(v)] on one entry. *)
Definition fillna (v : Q) (d : option Q) : Q :=
  match d with
  | Some q => q
  | None => v
  end.

(** Lines 78-79 on the ['duration'] column. *)
Definition durations (col : list Z) : list Q :=
  map (fillna (1 # 4)) (map to_quarters (diff_neg1 col)).

(** Line 76: [df[df.code != MELODY_NO_EVENT]]. *)
Definition events (note_array : list Z) : list note_row :=
  filter (fun r => code r <> MELODY_NO_EVENT) (frame_from 0 note_array).

(** The rows of [df[['code', 'duration']]], in order. *)
Definition noteArrayToDataFrame (note_array : list Z) : list (Z * Q) :=
  let df := events note_array in
  zip (map code df) (durations (map duration df)).

(** ** JSON values and Python containers *)

Set Warnings "-register-all".

(** What [json.loads] returns and [json.dump] writes.  An object is a Python
    [dict]: its bindings in insertion order, one per key. *)
Inductive json : Type :=
| JNull
| JBool (b : bool)
| JNum (q : Q)
| JStr (s : string)
| JArr (items : list json)
| JObj (bindings : list (string * json)).

Fixpoint assoc (k : string) (bindings : list (string * json)) : option json :=
  match bindings with
  | [] => None
  | (k', v) :: rest => if String.eqb k k' then Some v else assoc k rest
  end.

(** [d[k]] with a string key: KeyError on a dict without the key, TypeError
    on anything that is not a dict. *)
Definition py_getitem (d : json) (k : string) : result json :=
  match d with
  | JObj bindings =>
      match assoc k bindings with
      | Some v => Ok v
      | None => Err KeyError
      end
  | _ => Err TypeError
  end.

Fixpoint chars (s : string) : list json :=
  match s with
  | EmptyString => []
  | String c rest => JStr (String c EmptyString) :: chars rest
  end.

(** [for x in v]: the items of a list, the keys of a dict, the characters of
    a string; TypeError otherwise. *)
Definition py_iter (v : json) : result (list json) :=
  match v with
  | JArr items => Ok items
  | JObj bindings => Ok (map (fun kv => JStr (fst kv)) bindings)
  | JStr s => Ok (chars s)
  | _ => Err TypeError
  end.

(** [v == "..."] against a string literal. *)
Definition py_eq_str (v : json) (s : string) : bool :=
  match v with
  | JStr t => String.eqb t s
  | _ => false
  end.

(** A dict literal [{k1: cfg[k1], k2: cfg[k2], ...}], evaluated left to
    right. *)
Fixpoint pick (cfg : json) (keys : list string) : result (list (string * json)) :=
  match keys with
  | [] => Ok []
  | k :: rest =>
      let* v := py_getitem cfg k in
      let* kvs := pick cfg rest in
      Ok ((k, v) :: kvs)
  end.

Local Open Scope string_scope.

(** ** The layer whitelist (train.py 207-269) *)

(** Lines 210-256: [layer_config], [None] in the [else] branch. *)
Definition layer_config (class_name cfg : json) : result (option json) :=
  if py_eq_str class_name "InputLayer" then
    let* c := pick cfg ["batch_input_shape"] in Ok (Some (JObj c))
  else if py_eq_str class_name "Rescaling" then
    let* c := pick cfg ["scale"; "offset"] in Ok (Some (JObj c))
  else if py_eq_str class_name "Dense" then
    let* c := pick cfg ["units"; "activation"] in Ok (Some (JObj c))
  else if py_eq_str class_name "Conv2D" then
    let* c := pick cfg ["filters"; "kernel_size"; "strides"; "activation"; "padding"] in
    Ok (Some (JObj c))
  else if py_eq_str class_name "MaxPooling2D" then
    let* c := pick cfg ["pool_size"; "strides"; "padding"] in Ok (Some (JObj c))
  else if py_eq_str class_name "Embedding" then
    let* c := pick cfg ["input_dim"; "output_dim"] in Ok (Some (JObj c))
  else if py_eq_str class_name "SimpleRNN" then
    let* c := pick cfg ["units"; "activation"] in Ok (Some (JObj c))
  else if py_eq_str class_name "LSTM" then
    let* c := pick cfg ["units"; "activation"; "recurrent_activation"] in
    Ok (Some (JObj c))
  else Ok None.

(** Lines 210-263: one iteration of the loop, giving [res_layer]. *)
Definition compress_layer (layer : json) : result json :=
  let* cfg := py_getitem layer "config" in
  let* class_name := py_getitem layer "class_name" in
  let* layer_config := layer_config class_name cfg in
  let res_layer := [("class_name", class_name)] in
  match layer_config with
  | Some c => Ok (JObj (res_layer ++ [("config", c)]))
  | None => Ok (JObj res_layer)
  end.

Fixpoint compress_layers (layers : list json) : result (list json) :=
  match layers with
  | [] => Ok []
  | layer :: rest =>
      let* res_layer := compress_layer layer in
      let* res := compress_layers rest in
      Ok (res_layer :: res)
  end.

Definition compressConfig (data : json) : result json :=
  let* config := py_getitem data "config" in
  let* layers := py_getitem config "layers" in
  let* items := py_iter layers in
  let* layers := compress_layers items in
  Ok (JObj [("config", JObj [("layers", JArr layers)])]).

(** ** Weight packing and export (train.py 271-296) *)

(** An IEEE-754 value, a Python [float] (binary64) or a C [float]
    (binary32): a signed zero, a finite number [m * 2^e], a signed infinity,
    or a NaN with its sign and its fraction field (52 bits in binary64, 23 in
    binary32; [float('nan')] is [F_nan false (2^51)], the NaN of [inf - inf]
    is [F_nan true (2^51)]). *)
Inductive py_float : Set :=
| F_zero (s : bool)
| F_finite (s : bool) (m : positive) (e : Z)
| F_infinity (s : bool)
| F_nan (s : bool) (fraction : Z).

(** The result of a rounding, which is never a NaN. *)
Definition of_rounded (x : spec_float) : py_float :=
  match x with
  | S754_zero s => F_zero s
  | S754_finite s m e => F_finite s m e
  | S754_infinity s => F_infinity s
  | S754_nan => F_nan false (2 ^ 22)
  end.

(** The C conversion [(float)x] that [struct.pack("@f", x)] performs: a
    number is rounded to nearest even in binary32, overflow gives an
    infinity; a NaN keeps its sign and the upper 22 bits of its payload, and
    becomes quiet. *)
Definition to_float32 (x : py_float) : py_float :=
  match x with
  | F_finite s m e => of_rounded (binary_round 24 128 s m e)
  | F_nan s fraction => F_nan s (2 ^ 22 + (fraction / 2 ^ 29) mod 2 ^ 22)
  | _ => x
  end.

Definition sign_bit (s : bool) : Z := if s then 2 ^ 31 else 0.

(** The 32 bits of a binary32 value. *)
Definition float32_bits (x : py_float) : Z :=
  match x with
  | F_zero s => sign_bit s
  | F_infinity s => sign_bit s + 255 * 2 ^ 23
  | F_nan s fraction => sign_bit s + 255 * 2 ^ 23 + fraction mod 2 ^ 23
  | F_finite s m e =>
      sign_bit s +
      (if (2 ^ 23 <=? Z.pos m)%Z
       then (e + 150) * 2 ^ 23 + (Z.pos m - 2 ^ 23)
       else Z.pos m)
  end.

(** [struct.pack("@f", x)]: four bytes, least significant first (the native
    order of a little-endian host). *)
Definition struct_pack_f (x : py_float) : list Z :=
  let b := float32_bits (to_float32 x) in
  [Z.land b 255; Z.land (Z.shiftr b 8) 255;
   Z.land (Z.shiftr b 16) 255; Z.land (Z.shiftr b 24) 255].

Definition b64_alphabet : string :=
  "ABCDEFGHIJKLMNOPQRSTUVWXYZabcdefghijklmnopqrstuvwxyz0123456789+/".

Definition b64_char (n : Z) : ascii :=
  match String.get (Z.to_nat n) b64_alphabet with
  | Some c => c
  | None => "="%char
  end.

(** [base64.b64encode(..).decode()] *)
Fixpoint b64encode (bytes : list Z) : string :=
  match bytes with
  | [] => EmptyString
  | [a] =>
      let n := Z.shiftl a 16 in
      String (b64_char (Z.shiftr n 18))
        (String (b64_char (Z.land (Z.shiftr n 12) 63)) "==")
  | [a; b] =>
      let n := Z.lor (Z.shiftl a 16) (Z.shiftl b 8) in
      String (b64_char (Z.shiftr n 18))
        (String (b64_char (Z.land (Z.shiftr n 12) 63))
           (String (b64_char (Z.land (Z.shiftr n 6) 63)) "="))
  | a :: b :: c :: rest =>
      let n := Z.lor (Z.lor (Z.shiftl a 16) (Z.shiftl b 8)) c in
      String (b64_char (Z.shiftr n 18))
        (String (b64_char (Z.land (Z.shiftr n 12) 63))
           (String (b64_char (Z.land (Z.shiftr n 6) 63))
              (String (b64_char (Z.land n 63)) (b64encode rest))))
  end.

(** The trained model, as the exporter reads it: per layer the list returned
    by [layer.get_weights()], each group already flattened in row-major order
    ([reshape(-1).tolist()]), and the parsed [model.to_json()]. *)
Record keras_model : Type :=
  KerasModel { get_weights : list (list (list py_float)); to_json : json }.

(** Lines 274-282: the three nested loops extending [weight_bytes]. *)
Definition pack_group (weight_group : list py_float) : list Z :=
  flat_map struct_pack_f weight_group.

Definition pack_layer (layer : list (list py_float)) : list Z :=
  flat_map pack_group layer.

Definition pack_weights (weight_np : list (list (list py_float))) : list Z :=
  flat_map pack_layer weight_np.

(** What one call leaves behind: the object dumped to [output_path] and the
    returned pair. *)
Record export : Type :=
  Export { written : json; weight_base64 : string; compressed_config : json }.

Definition get_model_for_export (model : keras_model) : result export :=
  let weight_np := get_weights model in
  let weight_bytes := pack_weights weight_np in
  let weight_base64 := b64encode weight_bytes in
  let config := to_json model in
  let* compressed_config := compressConfig config in
  Ok (Export
        (JObj [("model_name", JStr "musicnetgen");
               ("layers_config", compressed_config);
               ("weight_b64", JStr weight_base64)])
        weight_base64 compressed_config).

Local Close Scope string_scope.

(** ** The decoded stream (train.py 82-98) *)

(** What lines 89-95 create for a row: a rest, or a note, given by its
    pitch-space (MIDI) number. *)
Inductive sound : Set :=
| Rest
| NoteOf (ps : Z).

(** The pitch of [note.Note(number)]: music21 reads a number below 12 as a
    pitch class, which sounds in the implicit octave 4 (0 is C4, MIDI 60),
    and a number from 12 on as a pitch-space number. *)
Definition note_ps (number : Z) : Z :=
  if number <? 12 then 60 + number mod 12 else number.

(** An element of the stream that is built: the offset [append] gave it, its
    [quarterLength], and what it is. *)
Record placed : Set :=
  Placed { placed_at : Q; placed_length : Q; placed_sound : sound }.

(** [highestTime] of the stream under construction. *)
Definition melody_highestTime (melody_stream : list placed) : Q :=
  fold_right (fun e m => Qmax (placed_at e + placed_length e) m) 0%Q
             melody_stream.

(** [melody_stream.append(new_note)]: the element goes to the end, at the
    stream's highest time. *)
Definition append (melody_stream : list placed) (new_note : sound)
           (quarterLength : Q) : list placed :=
  melody_stream ++
  [Placed (melody_highestTime melody_stream) quarterLength new_note].

(** Lines 89-95. *)
Definition new_note (code : Z) : sound :=
  if code =? MELODY_NO_EVENT then Rest
  else if code =? MELODY_NOTE_OFF then Rest
  else NoteOf (note_ps code).

Definition noteArrayToStream (note_array : list Z) : list placed :=
  let df := noteArrayToDataFrame note_array in
  fold_left (fun melody_stream row =>
               append melody_stream (new_note (fst row)) (snd row))
            df [].

(** ** Training windows (train.py 144-161) *)

(** The order of Python strings (by code point; on the bytes of UTF-8 text
    it is the lexicographic order of [String_as_OT]). *)
Definition str_leb (a b : string) : bool :=
  match String_as_OT.compare a b with
  | Gt => false
  | _ => true
  end.

Fixpoint insert_sorted (s : string) (l : list string) : list string :=
  match l with
  | [] => [s]
  | x :: t => if str_leb s x then s :: l else x :: insert_sorted s t
  end.

(** [sorted(..)] on strings. *)
Definition sorted (l : list string) : list string :=
  fold_right insert_sorted [] l.

(** [set(item for item in notes)]: the distinct names.  The iteration order
    of a set is not specified; [sorted] makes the result independent of it. *)
Fixpoint py_set (notes : list string) : list string :=
  match notes with
  | [] => []
  | x :: t => if existsb (String.eqb x) t then py_set t else x :: py_set t
  end.

(** [dict((note, number) for number, note in enumerate(pitchnames))], the
    numbering starting at [k]. *)
Fixpoint enumerate_from (k : Z) (pitchnames : list string) : list (string * Z) :=
  match pitchnames with
  | [] => []
  | note :: rest => (note, k) :: enumerate_from (k + 1) rest
  end.

(** [note_to_int[name]] *)
Fixpoint dict_get (note_to_int : list (string * Z)) (name : string) : result Z :=
  match note_to_int with
  | [] => Err KeyError
  | (k, v) :: rest => if String.eqb name k then Ok v else dict_get rest name
  end.

(** [[note_to_int[char] for char in sequence_in]] *)
Fixpoint to_ints (note_to_int : list (string * Z)) (sequence_in : list string)
  : result (list Z) :=
  match sequence_in with
  | [] => Ok []
  | char :: rest =>
      let* v := dict_get note_to_int char in
      let* vs := to_ints note_to_int rest in
      Ok (v :: vs)
  end.

(** [notes[i]] with a non-negative index. *)
Definition py_item (notes : list string) (i : nat) : result string :=
  match notes !! i with
  | Some x => Ok x
  | None => Err IndexError
  end.

(** Lines 151-155: the loop over [range(0, len(notes) - sequence_length)],
    [count] iterations left, the next one at [i]; it returns [inputs] and
    [targets]. *)
Fixpoint windows_from (note_to_int : list (string * Z)) (notes : list string)
         (sequence_length count i : nat) : result (list (list Z) * list Z) :=
  match count with
  | O => Ok ([], [])
  | S count' =>
      let sequence_in := take sequence_length (drop i notes) in
      let* sequence_out := py_item notes (i + sequence_length) in
      let* input := to_ints note_to_int sequence_in in
      let* target := dict_get note_to_int sequence_out in
      let* rest := windows_from note_to_int notes sequence_length count' (S i) in
      Ok (input :: fst rest, target :: snd rest)
  end.

(** [np.reshape(inputs, (n_sequences, sequence_length, 1))]: every row must
    hold [sequence_length] values; each value becomes a row of its own. *)
Definition np_reshape (inputs : list (list Z)) (sequence_length : nat)
  : result (list (list (list Z))) :=
  if forallb (fun w => Nat.eqb (length w) sequence_length) inputs
  then Ok (map (map (fun v => [v])) inputs)
  else Err ValueError.

(** Lines 144-161, on the list [notes] that the parsing loop has collected;
    [sequence_length] is a length, a natural number. *)
Definition make_training_data (notes : list string) (sequence_length : nat)
  : result (list (list (list Z)) * list Z * list (string * Z)) :=
  let pitchnames := sorted (py_set notes) in
  let note_to_int := enumerate_from 0 pitchnames in
  let* windows :=
    windows_from note_to_int notes sequence_length
                 (length notes - sequence_length) 0 in
  let targets := snd windows in
  let* inputs := np_reshape (fst windows) sequence_length in
  Ok (inputs, targets, note_to_int).

(** Lines 314-317 of [main]: the vocabulary and its size. *)
Definition vocabulary (note_to_int : list (string * Z)) : list string :=
  map fst note_to_int.


(** ** Vocabulary of the statements *)

(** Music21 durations are never negative. *)
Definition well_timed (stream : list element) : Prop :=
  Forall (fun e => (0 <= quarterLength e)%Q) stream.

(** Read literally: every retained note of quantized duration 0 shows
    NOTE_OFF at its onset tick in the encoded array. *)
Definition zero_duration_shows_note_off (stream : list element) : Prop :=
  forall df n output,
    note_frame stream = Ok df -> n ∈ df -> dur n = 0 ->
    streamToNoteArray stream = Ok output ->
    output !! Z.to_nat (pos n) = Some MELODY_NOTE_OFF.

(** Read literally: where a retained note ends on the onset tick of a later
    retained note, the array holds the later note's pitch. *)
Definition later_onset_wins (stream : list element) : Prop :=
  forall df n1 n2 output,
    note_frame stream = Ok df -> n1 ∈ df -> n2 ∈ df ->
    pos n1 < pos n2 -> pos n1 + dur n1 = pos n2 ->
    streamToNoteArray stream = Ok output ->
    output !! Z.to_nat (pos n2) = Some (pitch n2).

(** A duration that is a positive whole number of grid units. *)
Definition whole_ticks (d : Q) : Prop :=
  exists n : Z, 1 <= n /\ (d == inject_Z n * (1 # 4))%Q.

(** What the iteration of lines 62-66 for a retained row leaves at the row's
    own tick: the NOTE_OFF store hits the same index when [dur] is 0. *)
Definition left_at_onset (n : row) : Z :=
  if dur n =? 0 then MELODY_NOTE_OFF else int16 (pitch n).

(** The NOTE_OFF store of row [m] (line 66, index [pos m + dur m]) lands on
    index [j] of an array of [t + 1] entries; a negative index counts from
    the end. *)
Definition note_off_lands (t : Z) (m : row) (j : Z) : Prop :=
  pos m + dur m = j \/ pos m + dur m + (t + 1) = j.

(** Example streams. *)
Definition three_quarters : list element :=
  [Note 0 1 60; Note 1 1 62; Note 2 1 64].

Definition short_then_quarter : list element :=
  [Note 0 (1 # 10) 60; Note 1 1 62].

Definition quarter_short_quarter : list element :=
  [Note 0 1 60; Note 1 (1 # 10) 62; Note 2 1 64].

(** The indices of the array whose entry is kept by line 76. *)
Definition originalIndex (note_array : list Z) : list Z :=
  map index (events note_array).

Local Open Scope string_scope.

(** The eight recognized kinds, each with the parameter keys kept for it. *)
Definition whitelist : list (string * list string) :=
  [("InputLayer", ["batch_input_shape"]);
   ("Rescaling", ["scale"; "offset"]);
   ("Dense", ["units"; "activation"]);
   ("Conv2D", ["filters"; "kernel_size"; "strides"; "activation"; "padding"]);
   ("MaxPooling2D", ["pool_size"; "strides"; "padding"]);
   ("Embedding", ["input_dim"; "output_dim"]);
   ("SimpleRNN", ["units"; "activation"]);
   ("LSTM", ["units"; "activation"; "recurrent_activation"])].

Fixpoint keys_of (kind : string) (table : list (string * list string))
  : option (list string) :=
  match table with
  | [] => None
  | (k, keys) :: rest => if String.eqb kind k then Some keys else keys_of kind rest
  end.

Definition documented_keys (class_name : json) : option (list string) :=
  match class_name with
  | JStr kind => keys_of kind whitelist
  | _ => None
  end.

(** The shape of an entry of the compressed ["layers"] list. *)
Definition layer_entry (l : json) : Prop :=
  exists class_name,
    l = JObj [("class_name", class_name)] \/
    exists c, l = JObj [("class_name", class_name); ("config", JObj c)].

(** Read literally: a layer description whose kind is not a recognized one
    is compressed, to the entry with its class name only. *)
Definition unrecognized_kind_accepted (layer : json) : Prop :=
  forall class_name,
    py_getitem layer "class_name" = Ok class_name ->
    documented_keys class_name = None ->
    compressConfig (JObj [("config", JObj [("layers", JArr [layer])])]) =
    Ok (JObj [("config",
               JObj [("layers", JArr [JObj [("class_name", class_name)]])])]).

(** A layer description that lines 210-256 read without a KeyError: it has
    the keys ["config"] and ["class_name"] and, when its kind is a recognized
    one, its config has every key kept for that kind. *)
Definition compressible (layer : json) : Prop :=
  exists cfg class_name,
    py_getitem layer "config" = Ok cfg /\
    py_getitem layer "class_name" = Ok class_name /\
    forall keys, documented_keys class_name = Some keys ->
      forall k, k ∈ keys -> exists v, py_getitem cfg k = Ok v.

(** The entry of a layer description: the class name alone for a kind that
    is not recognized; for a recognized kind the class name and a config
    with exactly the keys kept for that kind, in their order, each with the
    value the layer's config has for it. *)
Definition compressed_as (layer entry : json) : Prop :=
  exists cfg class_name,
    py_getitem layer "config" = Ok cfg /\
    py_getitem layer "class_name" = Ok class_name /\
    match documented_keys class_name with
    | None => entry = JObj [("class_name", class_name)]
    | Some keys =>
        exists c,
          entry = JObj [("class_name", class_name); ("config", JObj c)] /\
          map fst c = keys /\
          Forall (fun kv => py_getitem cfg (fst kv) = Ok (snd kv)) c
    end.

(** Read literally: in the written object ["layers_config"] maps to an
    object that has the ["layers"] array at its top level. *)
Definition layers_at_top_level (model : keras_model) : Prop :=
  forall e, get_model_for_export model = Ok e ->
  exists layers_config layers,
    py_getitem (written e) "layers_config" = Ok layers_config /\
    py_getitem layers_config "layers" = Ok (JArr layers).

Definition finite_value (x : py_float) : bool :=
  match x with
  | F_zero _ | F_finite _ _ _ => true
  | F_infinity _ | F_nan _ _ => false
  end.

Definition all_finite (weight_np : list (list (list py_float))) : bool :=
  forallb (forallb (forallb finite_value)) weight_np.

(** Read literally: a non-finite weight makes the export fail. *)
Definition rejects_non_finite (model : keras_model) : Prop :=
  all_finite (get_weights model) = false ->
  exists e, get_model_for_export model = Err e.

(** All weight values, in packing order. *)
Definition weight_values (weight_np : list (list (list py_float)))
  : list py_float :=
  concat (concat weight_np).

(** A small model: a dense layer followed by a softmax activation, as
    [model.to_json()] describes it. *)
Definition dense_softmax : json :=
  JObj [("class_name", JStr "Sequential");
        ("config",
         JObj [("name", JStr "sequential");
               ("layers",
                JArr [JObj [("class_name", JStr "Dense");
                            ("config",
                             JObj [("name", JStr "dense");
                                   ("trainable", JBool true);
                                   ("units", JNum 2);
                                   ("activation", JStr "linear");
                                   ("use_bias", JBool true)])];
                      JObj [("class_name", JStr "Activation");
                            ("config",
                             JObj [("name", JStr "activation");
                                   ("activation", JStr "softmax")])]])]);
        ("backend", JStr "tensorflow")].

Definition one : py_float := F_finite false 4503599627370496 (-52).

(** Kernel [[1.0, 1.0]] and bias [0.0, 0.0]; the activation has no weights. *)
Definition small_model : keras_model :=
  KerasModel [[[one; one]; [F_zero false; F_zero false]]; []] dense_softmax.

(** The same with a NaN ([float('nan')]) and an infinity in the kernel. *)
Definition nan_model : keras_model :=
  KerasModel [[[F_nan false (2 ^ 51); F_infinity false];
               [F_zero false; F_zero false]]; []] dense_softmax.

(** The exponent field of 32 bits. *)
Definition exponent_field (bits : Z) : Z := Z.land (Z.shiftr bits 23) 255.

Local Close Scope string_scope.

(** ** Vocabulary of the further properties *)

(** Whether some row of the frame that the loop visits (onset tick in
    [0, t)) has its NOTE_OFF tick at [j]. *)
Definition ends_at (df : list row) (t j : Z) : bool :=
  existsb (fun n => (0 <=? pos n) && (pos n <? t) && (pos n + dur n =? j)) df.

(** The row whose onset the loop has written at tick [j] once the ticks in
    [0, t) have been processed. *)
Definition visited_onset (df : list row) (t j : Z) : option row :=
  match select df j with
  | n :: _ => if (0 <=? j) && (j <? t) then Some n else None
  | [] => None
  end.

(** The entry that lines 58-66 leave at index [j] once the ticks in [0, t)
    have been processed: the onset of a visited row, else NOTE_OFF where a
    visited row ends, else NO_EVENT. *)
Definition encoded_value (df : list row) (t j : Z) : Z :=
  match visited_onset df t j with
  | Some n => left_at_onset n
  | None => if ends_at df t j then MELODY_NOTE_OFF else MELODY_NO_EVENT
  end.

(** The array after the ticks in [0, t) have been processed. *)
Definition filled_to (df : list row) (t : Z) (output : list Z) : Prop :=
  forall j : nat, (j < length output)%nat ->
    output !! j = Some (encoded_value df t (Z.of_nat j)).

(** Times that lie on the sixteenth-note grid. *)
Definition on_grid (q : Q) : Prop := exists k : Z, (q == inject_Z k * grid)%Q.

Definition grid_aligned (stream : list element) : Prop :=
  Forall (fun e => on_grid (offset e) /\ on_grid (quarterLength e)) stream.

(** MIDI numbers, as [pitch.midi] gives them. *)
Definition midi_pitches (stream : list element) : Prop :=
  Forall (fun e => match e with
                   | Note _ _ m => 0 <= m <= 127
                   | Chord _ _ ps => Forall (fun m => 0 <= m <= 127) ps
                   | Other _ _ => True
                   end) stream.

(** The order of the sorted frame, as a relation. *)
Definition sorted_before (a b : row) : Prop := row_le a b = true.

(** The sum of a column of durations. *)
Definition Qsum (l : list Q) : Q := fold_right Qplus 0%Q l.

(** A layer description whose kind is one of the eight recognized ones. *)
Definition recognized (layer : json) : Prop :=
  exists class_name keys,
    py_getitem layer "class_name"%string = Ok class_name /\
    documented_keys class_name = Some keys.

(** Two descriptions of one kind. *)
Definition same_class_name (layer res : json) : Prop :=
  exists class_name,
    py_getitem layer "class_name"%string = Ok class_name /\
    py_getitem res "class_name"%string = Ok class_name.

(** The window that starts at [m]: its [sequence_length] codes and its
    target, read through the dictionary. *)
Definition window_of (note_to_int : list (string * Z)) (notes : list string)
           (sequence_length m : nat) (input : list Z) (target : Z) : Prop :=
  Forall2 (fun name v => dict_get note_to_int name = Ok v)
          (take sequence_length (drop m notes)) input /\
  exists name, notes !! (m + sequence_length)%nat = Some name /\
               dict_get note_to_int name = Ok target.

(** A frame that describes a melody the array can hold: every row starts at
    a tick of the array, lasts at least one tick, ends within the total
    length [t] and has a MIDI pitch; a row ends before the next one starts. *)
Definition monophonic (df : list row) (t : Z) : Prop :=
  (forall n, n ∈ df ->
     0 <= pos n /\ 1 <= dur n /\ pos n + dur n <= t /\ 0 <= pitch n <= 127) /\
  (forall n m, n ∈ df -> m ∈ df -> pos n < pos m -> pos n + dur n <= pos m).

(** Notes and chords, the elements that lines 44-49 turn into rows. *)
Definition sounding (e : element) : Prop :=
  match e with
  | Other _ _ => False
  | _ => True
  end.

(** A melody written on the grid: every note or chord starts at a
    non-negative offset, lasts at least one grid unit, and has ended when a
    later one starts. *)
Definition melody_on_grid (stream : list element) : Prop :=
  grid_aligned stream /\ midi_pitches stream /\
  (forall e, e ∈ stream -> sounding e ->
     (0 <= offset e)%Q /\ (grid <= quarterLength e)%Q) /\
  (forall e1 e2, e1 ∈ stream -> e2 ∈ stream -> sounding e1 -> sounding e2 ->
     (offset e1 < offset e2)%Q ->
     (offset e1 + quarterLength e1 <= offset e2)%Q).

(** * Properties *)

Lemma bind_Ok {A B : Type} (m : result A) (k : A -> result B) (b : B) :
  bind m k = Ok b -> exists a, m = Ok a /\ k a = Ok b.
Proof. destruct m as [a|e]; simpl; [eauto | discriminate]. Qed.

(** ** The encoder *)

Section Rounding.

Lemma np_round_nonneg (q : Q) : (0 <= q)%Q -> 0 <= np_round q.
Proof.
  destruct q as [n d]. unfold Qle, np_round. simpl. intros Hn.
  assert (0 <= n) by lia.
  assert (0 <= n / Z.pos d) by (apply Z.div_pos; lia).
  repeat match goal with |- context [if ?b then _ else _] => destruct b end; lia.
Qed.

Lemma ticks_nonneg (q : Q) : (0 <= q)%Q -> 0 <= np_round (q / grid).
Proof.
  intros Hq. apply np_round_nonneg.
  destruct q as [n d]. unfold Qle in *. simpl in *. lia.
Qed.

End Rounding.

Section FrameRows.

Lemma DataFrame_columns (l : list row) :
  DataFrame (map pos l) (map dur l) (map pitch l) = l.
Proof.
  induction l as [|[p d m] l IH]; simpl; [reflexivity | by rewrite IH].
Qed.

Lemma insert_row_elem (r x : row) (l : list row) :
  x ∈ insert_row r l -> x = r \/ x ∈ l.
Proof.
  induction l as [|y l IH]; simpl.
  - intros H. apply list_elem_of_singleton in H. auto.
  - destruct (row_le r y).
    + intros H. apply elem_of_cons in H. exact H.
    + intros H. apply elem_of_cons in H as [->|H].
      * right. apply list_elem_of_here.
      * destruct (IH H) as [->|Hl]; [auto | right; by apply list_elem_of_further].
Qed.

Lemma sort_values_elem (x : row) (l : list row) :
  x ∈ sort_values l -> x ∈ l.
Proof.
  induction l as [|r l IH]; simpl; [done|].
  intros H. apply insert_row_elem in H as [->|H].
  - apply list_elem_of_here.
  - apply list_elem_of_further. by apply IH.
Qed.

Lemma drop_duplicates_from_elem (x : row) (l : list row) (seen : list Z) :
  x ∈ drop_duplicates_from seen l ->
  x ∈ l /\ existsb (Z.eqb (pos x)) seen = false.
Proof.
  revert seen. induction l as [|r l IH]; intros seen; simpl.
  - intros H. by apply elem_of_nil in H.
  - destruct (existsb (Z.eqb (pos r)) seen) eqn:Hs.
    + intros H. destruct (IH _ H) as [H1 H2].
      split; [by apply list_elem_of_further | done].
    + intros H. apply elem_of_cons in H as [->|H].
      * split; [apply list_elem_of_here | done].
      * destruct (IH _ H) as [H1 H2]. split; [by apply list_elem_of_further|].
        simpl in H2. by apply orb_false_iff in H2 as [_ H2].
Qed.

Lemma select_seen (l : list row) (seen : list Z) (i : Z) :
  existsb (Z.eqb i) seen = true -> select (drop_duplicates_from seen l) i = [].
Proof.
  revert seen. induction l as [|r l IH]; intros seen Hi; simpl; [done|].
  destruct (existsb (Z.eqb (pos r)) seen) eqn:Hs.
  - by apply IH.
  - unfold select. rewrite filter_cons.
    destruct (decide (pos r = i)) as [<-|_]; [congruence|].
    apply IH. simpl. by rewrite Hi, orb_true_r.
Qed.

(** After [drop_duplicates] a retained row is the only one at its tick:
    [df[df.pos == i].iloc[0]] is that row. *)
Lemma select_retained_from (n : row) (l : list row) (seen : list Z) :
  n ∈ drop_duplicates_from seen l ->
  select (drop_duplicates_from seen l) (pos n) = [n].
Proof.
  revert seen. induction l as [|r l IH]; intros seen; simpl.
  - intros H. by apply elem_of_nil in H.
  - destruct (existsb (Z.eqb (pos r)) seen) eqn:Hs; [by apply IH|].
    intros H. unfold select. rewrite filter_cons.
    apply elem_of_cons in H as [->|H].
    + rewrite decide_True by done. f_equal.
      apply select_seen. simpl. by rewrite Z.eqb_refl.
    + destruct (drop_duplicates_from_elem _ _ _ H) as [_ Hn].
      simpl in Hn. apply orb_false_iff in Hn as [Hn _].
      apply Z.eqb_neq in Hn. rewrite decide_False by congruence.
      by apply IH.
Qed.

Lemma extract_dur_nonneg (stream : list element) (rows : list row) :
  well_timed stream -> extract stream = Ok rows ->
  Forall (fun r => 0 <= dur r) rows.
Proof.
  unfold well_timed. intros Hw. revert rows.
  induction Hw as [|e stream He Hw IH]; intros rows; simpl.
  - intros [= <-]. constructor.
  - destruct e as [o d m|o d ps|o d]; simpl in He.
    + intros H. apply bind_Ok in H as (rs & H1 & [= <-]).
      constructor; [by apply ticks_nonneg | by apply IH].
    + intros H. apply bind_Ok in H as (m & _ & H).
      apply bind_Ok in H as (rs & H1 & [= <-]).
      constructor; [by apply ticks_nonneg | by apply IH].
    + apply IH.
Qed.

Lemma note_frame_inv (stream : list element) (df : list row) :
  note_frame stream = Ok df ->
  exists rows, extract stream = Ok rows /\
               df = drop_duplicates (sort_values rows).
Proof.
  unfold note_frame. intros H.
  apply bind_Ok in H as (rows & H1 & H). exists rows. split; [done|].
  apply bind_Ok in H as ([[cp cd] cm] & H2 & [= <-]).
  destruct rows as [|r rows]; [discriminate|]. unfold columns in H2.
  injection H2 as <- <- <-.
  change (DataFrame _ _ _) with
    (DataFrame (map pos (r :: rows)) (map dur (r :: rows)) (map pitch (r :: rows))).
  by rewrite DataFrame_columns.
Qed.

Lemma note_frame_dur_nonneg (stream : list element) (df : list row) :
  well_timed stream -> note_frame stream = Ok df ->
  Forall (fun r => 0 <= dur r) df.
Proof.
  intros Hw H. apply note_frame_inv in H as (rows & H1 & ->).
  pose proof (extract_dur_nonneg _ _ Hw H1) as Hr.
  rewrite Forall_forall in Hr. apply Forall_forall. intros x Hx.
  apply Hr. apply sort_values_elem.
  by apply (drop_duplicates_from_elem _ _ []).
Qed.

Lemma note_frame_select (stream : list element) (df : list row) (n : row) :
  note_frame stream = Ok df -> n ∈ df -> select df (pos n) = [n].
Proof.
  intros H Hn. apply note_frame_inv in H as (rows & _ & ->).
  by apply select_retained_from.
Qed.

End FrameRows.

Section FillLoop.

Variable df : list row.
Hypothesis dur_nonneg : Forall (fun r => 0 <= dur r) df.

Lemma np_setitem_inv (a a' : list Z) (k v : Z) :
  0 <= k -> np_setitem a k v = Ok a' ->
  (Z.to_nat k < length a)%nat /\ a' = <[Z.to_nat k := int16 v]> a.
Proof.
  unfold np_setitem. intros Hk H.
  destruct (_ || _) eqn:Hb; [discriminate|].
  apply orb_false_iff in Hb as [_ Hb]. apply Z.leb_gt in Hb.
  destruct (k <? 0) eqn:Hn; [apply Z.ltb_lt in Hn; lia|].
  injection H as <-. split; [lia | reflexivity].
Qed.

Lemma select_head (i : Z) (n : row) (rest : list row) :
  select df i = n :: rest -> pos n = i /\ 0 <= dur n.
Proof.
  intros Hs. assert (Hn : n ∈ select df i) by (rewrite Hs; apply list_elem_of_here).
  apply list_elem_of_filter in Hn as [Hp Hn]. split; [done|].
  rewrite Forall_forall in dur_nonneg. by apply dur_nonneg.
Qed.

Lemma fill_tick_length (output output' : list Z) (i : Z) :
  0 <= i -> fill_tick df output i = Ok output' -> length output' = length output.
Proof.
  unfold fill_tick. intros Hi H.
  destruct (select df i) as [|n rest] eqn:Hs; [by injection H as <-|].
  destruct (select_head _ _ _ Hs) as [_ Hd].
  apply bind_Ok in H as (o1 & H1 & H2).
  apply np_setitem_inv in H1 as [_ ->]; [|lia].
  apply np_setitem_inv in H2 as [_ ->]; [|lia].
  by rewrite !length_insert.
Qed.

(** A run of the loop that returns has stored every NOTE_OFF inside the
    array. *)
Lemma fill_from_in_bounds (count : nat) (output output' : list Z) (i j : Z)
      (n : row) (rest : list row) :
  0 <= i <= j -> j < i + Z.of_nat count -> select df j = n :: rest ->
  fill_from df count i output = Ok output' ->
  j + dur n < Z.of_nat (length output).
Proof.
  revert output i. induction count as [|count IH]; intros output i Hi Hj Hs; simpl.
  - lia.
  - intros H. apply bind_Ok in H as (o1 & H1 & H2).
    assert (Hlen : length o1 = length output)
      by (apply (fill_tick_length output o1 i); [lia | exact H1]).
    destruct (Z.eq_dec i j) as [->|Hne].
    + unfold fill_tick in H1. rewrite Hs in H1.
      destruct (select_head _ _ _ Hs) as [_ Hd].
      apply bind_Ok in H1 as (o2 & H3 & H4).
      apply np_setitem_inv in H3 as [_ ->]; [|lia].
      apply np_setitem_inv in H4 as [Hb _]; [|lia].
      rewrite length_insert in Hb. lia.
    + rewrite <- Hlen. apply (IH o1 (i + 1)); [lia | lia | done | done].
Qed.

End FillLoop.

Section StoresAtTick.

Variable df : list row.

(** A store that returns has written one slot, the one of its index or,
    for a negative index, the one counted from the end. *)
Lemma np_setitem_store (a a' : list Z) (k v : Z) :
  np_setitem a k v = Ok a' ->
  exists idx : nat,
    (idx < length a)%nat /\ a' = <[idx := int16 v]> a /\
    (Z.of_nat idx = k \/ Z.of_nat idx = k + Z.of_nat (length a)).
Proof.
  unfold np_setitem. destruct (_ || _) eqn:Hb; [discriminate|].
  apply orb_false_iff in Hb as [Hlo Hhi].
  apply Z.ltb_ge in Hlo. apply Z.leb_gt in Hhi. intros [= <-].
  destruct (k <? 0) eqn:Hn.
  - apply Z.ltb_lt in Hn. exists (Z.to_nat (k + Z.of_nat (length a))).
    split; [lia|]. split; [done | right; lia].
  - apply Z.ltb_ge in Hn. exists (Z.to_nat k).
    split; [lia|]. split; [done | left; lia].
Qed.

Lemma select_onset (i : Z) (m : row) (rest : list row) :
  select df i = m :: rest -> m ∈ df /\ pos m = i.
Proof.
  intros Hs. assert (Hm : m ∈ select df i) by (rewrite Hs; apply list_elem_of_here).
  apply list_elem_of_filter in Hm as [Hp Hm]. by split.
Qed.

Lemma fill_tick_keeps_length (output output' : list Z) (i : Z) :
  fill_tick df output i = Ok output' -> length output' = length output.
Proof.
  unfold fill_tick. destruct (select df i) as [|m rest]; [by intros [= <-]|].
  intros H. apply bind_Ok in H as (o1 & H1 & H2).
  apply np_setitem_store in H1 as (i1 & _ & -> & _).
  apply np_setitem_store in H2 as (i2 & _ & -> & _).
  by rewrite !length_insert.
Qed.

(** A NOTE_OFF at an earlier tick survives an iteration: the note-on goes
    to the iteration's own tick, and the only other store writes NOTE_OFF. *)
Lemma fill_tick_keeps_note_off (output output' : list Z) (i j : Z) :
  0 <= j < i -> output !! Z.to_nat j = Some MELODY_NOTE_OFF ->
  fill_tick df output i = Ok output' ->
  output' !! Z.to_nat j = Some MELODY_NOTE_OFF.
Proof.
  unfold fill_tick. intros Hj Hoff.
  destruct (select df i) as [|m rest]; [by intros [= <-]|].
  intros H. apply bind_Ok in H as (o1 & H1 & H2).
  apply np_setitem_inv in H1 as [_ ->]; [|lia].
  apply np_setitem_store in H2 as (i2 & Hi2 & -> & _).
  destruct (decide (i2 = Z.to_nat j)) as [->|Hne].
  - by rewrite list_lookup_insert_eq.
  - rewrite !list_lookup_insert_ne by lia. exact Hoff.
Qed.

Lemma fill_from_keeps_note_off (count : nat) (output output' : list Z) (i j : Z) :
  0 <= j < i -> output !! Z.to_nat j = Some MELODY_NOTE_OFF ->
  fill_from df count i output = Ok output' ->
  output' !! Z.to_nat j = Some MELODY_NOTE_OFF.
Proof.
  revert output i. induction count as [|count IH]; intros output i Hj Hoff; simpl.
  - by intros [= <-].
  - intros H. apply bind_Ok in H as (o1 & H1 & H2).
    apply (IH o1 (i + 1)); [lia | | exact H2].
    by apply (fill_tick_keeps_note_off output o1 i j).
Qed.

(** The iteration of a row of 0 ticks leaves NOTE_OFF at its tick. *)
Lemma fill_tick_zero (output output' : list Z) (j : Z) (n : row) (rest : list row) :
  0 <= j -> select df j = n :: rest -> dur n = 0 ->
  fill_tick df output j = Ok output' ->
  output' !! Z.to_nat j = Some MELODY_NOTE_OFF.
Proof.
  unfold fill_tick. intros Hj Hs Hd H. rewrite Hs, Hd, Z.add_0_r in H.
  apply bind_Ok in H as (o1 & H1 & H2).
  apply np_setitem_inv in H1 as [Hl ->]; [|lia].
  apply np_setitem_inv in H2 as [_ ->]; [|lia].
  by rewrite list_lookup_insert_eq by (rewrite length_insert; lia).
Qed.

Lemma fill_from_zero (count : nat) (output output' : list Z) (i j : Z)
      (n : row) (rest : list row) :
  0 <= i <= j -> j < i + Z.of_nat count ->
  select df j = n :: rest -> dur n = 0 ->
  fill_from df count i output = Ok output' ->
  output' !! Z.to_nat j = Some MELODY_NOTE_OFF.
Proof.
  revert output i. induction count as [|count IH]; intros output i Hi Hj Hs Hd; simpl.
  - lia.
  - intros H. apply bind_Ok in H as (o1 & H1 & H2).
    destruct (Z.eq_dec i j) as [->|Hne].
    + apply (fill_from_keeps_note_off count o1 output' (j + 1) j); [lia | | exact H2].
      apply (fill_tick_zero output o1 j n rest); [lia | done | done | done].
    + apply (IH o1 (i + 1)); [lia | lia | done | done | done].
Qed.

(** An entry survives an iteration at another tick when that iteration's
    NOTE_OFF does not land on it. *)
Lemma fill_tick_keeps (output output' : list Z) (i j : Z) :
  0 <= j -> 0 <= i -> i <> j ->
  (forall m rest, select df i = m :: rest ->
     ~ note_off_lands (Z.of_nat (length output) - 1) m j) ->
  fill_tick df output i = Ok output' ->
  output' !! Z.to_nat j = output !! Z.to_nat j.
Proof.
  unfold fill_tick. intros Hj Hi Hne Hland.
  destruct (select df i) as [|m rest] eqn:Hs; [by intros [= <-]|].
  destruct (select_onset _ _ _ Hs) as [_ Hp].
  specialize (Hland m rest eq_refl). unfold note_off_lands in Hland.
  intros H. apply bind_Ok in H as (o1 & H1 & H2).
  apply np_setitem_inv in H1 as [_ ->]; [|lia].
  apply np_setitem_store in H2 as (i2 & Hi2 & -> & Hidx).
  rewrite length_insert in Hidx.
  rewrite !list_lookup_insert_ne by lia. reflexivity.
Qed.

Lemma fill_from_keeps (count : nat) (output output' : list Z) (i j : Z) :
  0 <= j < i ->
  (forall m, m ∈ df -> i <= pos m < i + Z.of_nat count ->
     ~ note_off_lands (Z.of_nat (length output) - 1) m j) ->
  fill_from df count i output = Ok output' ->
  output' !! Z.to_nat j = output !! Z.to_nat j.
Proof.
  revert output i. induction count as [|count IH]; intros output i Hj Hland; simpl.
  - by intros [= <-].
  - intros H. apply bind_Ok in H as (o1 & H1 & H2).
    pose proof (fill_tick_keeps_length _ _ _ H1) as Hlen.
    rewrite (IH o1 (i + 1)); [| lia | | exact H2].
    + apply (fill_tick_keeps output o1 i j); [lia | lia | lia | | exact H1].
      intros m rest Hs. destruct (select_onset _ _ _ Hs) as [Hm Hp].
      apply Hland; [done | lia].
    + intros m Hm Hp. rewrite Hlen. apply Hland; [done | lia].
Qed.

(** The iteration of a row of at least one tick leaves its pitch at its
    tick. *)
Lemma fill_tick_pitch (output output' : list Z) (j : Z) (n : row) (rest : list row) :
  0 <= j -> select df j = n :: rest -> 0 < dur n ->
  fill_tick df output j = Ok output' ->
  output' !! Z.to_nat j = Some (int16 (pitch n)).
Proof.
  unfold fill_tick. intros Hj Hs Hd H. rewrite Hs in H.
  apply bind_Ok in H as (o1 & H1 & H2).
  apply np_setitem_inv in H1 as [Hl ->]; [|lia].
  apply np_setitem_inv in H2 as [_ ->]; [|lia].
  rewrite list_lookup_insert_ne by lia. by rewrite list_lookup_insert_eq.
Qed.

Lemma fill_from_pitch (count : nat) (output output' : list Z) (i j : Z)
      (n : row) (rest : list row) :
  0 <= i <= j -> j < i + Z.of_nat count ->
  select df j = n :: rest -> 0 < dur n ->
  (forall m, m ∈ df -> j < pos m < i + Z.of_nat count ->
     ~ note_off_lands (Z.of_nat (length output) - 1) m j) ->
  fill_from df count i output = Ok output' ->
  output' !! Z.to_nat j = Some (int16 (pitch n)).
Proof.
  revert output i. induction count as [|count IH];
    intros output i Hi Hj Hs Hd Hland; simpl.
  - lia.
  - intros H. apply bind_Ok in H as (o1 & H1 & H2).
    pose proof (fill_tick_keeps_length _ _ _ H1) as Hlen.
    destruct (Z.eq_dec i j) as [->|Hne].
    + rewrite (fill_from_keeps count o1 output' (j + 1) j); [| lia | | exact H2].
      * apply (fill_tick_pitch output o1 j n rest); [lia | done | done | done].
      * intros m Hm Hp. rewrite Hlen. apply Hland; [done | lia].
    + apply (IH o1 (i + 1)); [lia | lia | done | done | | done].
      intros m Hm Hp. rewrite Hlen. apply Hland; [done | lia].
Qed.

(** With durations that are not negative, the NOTE_OFF of a row that starts
    later is stored elsewhere. *)
Lemma later_note_off_elsewhere (t j : Z) (m : row) :
  0 <= t -> 0 <= j < pos m -> 0 <= dur m -> ~ note_off_lands t m j.
Proof. unfold note_off_lands. lia. Qed.

End StoresAtTick.

(** The array the loop starts from. *)
Lemma encoder_start (stream : list element) (df : list row) (output : list Z) :
  note_frame stream = Ok df -> streamToNoteArray stream = Ok output ->
  exists start,
    Z.of_nat (length start) = total_length stream + 1 /\
    fill_from df (Z.to_nat (total_length stream)) 0 start = Ok output.
Proof.
  intros Hf H. unfold streamToNoteArray in H. rewrite Hf in H. simpl in H.
  apply bind_Ok in H as (o0 & H0 & H). exists o0. split; [|exact H].
  unfold np_full in H0.
  destruct (total_length stream + 1 <? 0) eqn:Hneg; [discriminate|].
  apply Z.ltb_ge in Hneg. injection H0 as <-. rewrite length_replicate. lia.
Qed.

(** The encoder returns only if the NOTE_OFF of every visited note falls
    inside the array; otherwise line 66 raises. *)
Lemma encoder_returns_in_bounds (stream : list element) (df : list row)
      (n : row) (output : list Z) :
  well_timed stream -> note_frame stream = Ok df -> n ∈ df ->
  0 <= pos n < total_length stream ->
  streamToNoteArray stream = Ok output ->
  pos n + dur n <= total_length stream.
Proof.
  intros Hw Hf Hn Hp H. unfold streamToNoteArray in H. rewrite Hf in H. simpl in H.
  apply bind_Ok in H as (o0 & H0 & H).
  assert (Hlen : Z.of_nat (length o0) = total_length stream + 1).
  { unfold np_full in H0. destruct (_ <? 0); [discriminate|].
    injection H0 as <-. rewrite length_replicate. lia. }
  pose proof (fill_from_in_bounds df (note_frame_dur_nonneg _ _ Hw Hf)
                (Z.to_nat (total_length stream)) o0 output 0 (pos n) n []) as Hb.
  rewrite Hlen in Hb.
  assert (pos n + dur n < total_length stream + 1); [|lia].
  apply Hb; [lia | lia | by apply (note_frame_select stream) | exact H].
Qed.

(** A stream without notes and chords has no columns to extract. *)
Lemma encoder_without_notes (stream : list element) :
  extract stream = Ok [] -> streamToNoteArray stream = Err IndexError.
Proof.
  intros H. unfold streamToNoteArray, note_frame. by rewrite H.
Qed.

(** C5: the three quarter notes C4, D4, E4 encode to the array of length 13
    with 60 at tick 0, 62 at tick 4, 64 at tick 8, NOTE_OFF at tick 12 and
    NO_EVENT elsewhere. *)
Theorem encode_three_quarter_notes :
  streamToNoteArray three_quarters =
  Ok [60; 129; 129; 129; 62; 129; 129; 129; 64; 129; 129; 129; 128].
Proof. vm_compute. reflexivity. Qed.

(** C2: on a stream without notes or chords the encoder raises IndexError at
    line 52 ([np_stream_list.T[0]]); it does not return the array [129]. *)
Theorem encode_empty_raises :
  streamToNoteArray [] = Err IndexError /\
  note_frame [] = Err IndexError /\
  np_full (total_length [] + 1) MELODY_NO_EVENT = Ok [129].
Proof. vm_compute. auto. Qed.

(** C3: a single note at offset 0.4 of length 0.4 is quantized to tick 2 and
    2 ticks, the array has length 4 (3 + 1), and the NOTE_OFF store at index
    4 raises IndexError: the write is neither clamped nor is the array
    extended. *)
Theorem encode_note_off_beyond_end :
  total_length [Note (2 # 5) (2 # 5) 60] = 3 /\
  note_frame [Note (2 # 5) (2 # 5) 60] = Ok [Row 2 2 60] /\
  streamToNoteArray [Note (2 # 5) (2 # 5) 60] = Err IndexError.
Proof. vm_compute. auto. Qed.

(** C6, as stated, fails: a lone note shorter than half a grid unit gives a
    one-element array that the loop never touches, so its onset tick holds
    NO_EVENT. *)
Lemma zero_duration_lone_note :
  ~ zero_duration_shows_note_off [Note 0 (1 # 10) 60].
Proof.
  intros H.
  specialize (H [Row 0 0 60] (Row 0 0 60) [129] eq_refl
                (list_elem_of_here _ _) eq_refl eq_refl).
  discriminate H.
Qed.

(** C6 (amended): for a retained note of quantized duration 0 whose onset
    tick is below the total length (a tick the loop visits), the encoder
    leaves NOTE_OFF, not the pitch, at the onset tick. *)
Theorem zero_duration_note_off (stream : list element) (df : list row)
        (n : row) (output : list Z) :
  note_frame stream = Ok df -> n ∈ df -> dur n = 0 ->
  0 <= pos n < total_length stream ->
  streamToNoteArray stream = Ok output ->
  output !! Z.to_nat (pos n) = Some MELODY_NOTE_OFF.
Proof.
  intros Hf Hn Hd Hp H.
  destruct (encoder_start _ _ _ Hf H) as (start & _ & Hfill).
  apply (fill_from_zero df (Z.to_nat (total_length stream)) start output 0
           (pos n) n []); [lia | lia | | exact Hd | exact Hfill].
  by apply (note_frame_select stream).
Qed.

Ltac timed :=
  unfold well_timed; repeat (constructor; [by vm_compute|]); constructor.

Lemma zero_duration_note_off_witness :
  note_frame short_then_quarter = Ok [Row 0 0 60; Row 4 4 62] /\
  total_length short_then_quarter = 8 /\
  streamToNoteArray short_then_quarter =
    Ok [128; 129; 129; 129; 62; 129; 129; 129; 128] /\
  [128; 129; 129; 129; 62; 129; 129; 129; 128] !! Z.to_nat (pos (Row 0 0 60)) =
    Some MELODY_NOTE_OFF.
Proof.
  do 3 (split; [reflexivity|]).
  apply (zero_duration_note_off short_then_quarter [Row 0 0 60; Row 4 4 62]
           (Row 0 0 60) _ eq_refl).
  - apply list_elem_of_here.
  - reflexivity.
  - by vm_compute.
  - reflexivity.
Defined.

(** C9, as stated, fails: in C4 (a quarter), D4 (shorter than half a grid
    unit), E4 (a quarter) the first note ends on tick 4 where the second
    starts, and tick 4 holds NOTE_OFF, not 62. *)
Lemma later_onset_of_zero_duration :
  ~ later_onset_wins quarter_short_quarter.
Proof.
  intros H.
  specialize (H [Row 0 4 60; Row 4 0 62; Row 8 4 64] (Row 0 4 60) (Row 4 0 62)
                [60; 129; 129; 129; 128; 129; 129; 129; 64; 129; 129; 129; 128]
                eq_refl).
  discriminate H.
  - apply list_elem_of_here.
  - apply list_elem_of_further, list_elem_of_here.
  - reflexivity.
  - reflexivity.
  - reflexivity.
Qed.

(** C9 (amended): when a retained note ends on the onset tick of a later
    retained note, that later note starts at a tick the loop visits (in
    [0, total length)), lasts at least one tick and has a MIDI pitch (0 to
    127), and no note retained at a later visited tick has its NOTE_OFF
    stored on that tick, the array holds the later note's pitch at that tick,
    not NOTE_OFF. *)
Theorem later_note_on_wins (stream : list element) (df : list row)
        (n1 n2 : row) (output : list Z) :
  note_frame stream = Ok df -> n1 ∈ df -> n2 ∈ df ->
  pos n1 < pos n2 -> pos n1 + dur n1 = pos n2 ->
  0 <= pos n2 < total_length stream -> 0 < dur n2 -> 0 <= pitch n2 <= 127 ->
  (forall m, m ∈ df -> pos n2 < pos m < total_length stream ->
     ~ note_off_lands (total_length stream) m (pos n2)) ->
  streamToNoteArray stream = Ok output ->
  output !! Z.to_nat (pos n2) = Some (pitch n2) /\
  pitch n2 <> MELODY_NOTE_OFF.
Proof.
  intros Hf _ Hn2 _ _ Hp Hd Hm Hland H.
  destruct (encoder_start _ _ _ Hf H) as (start & Hlen & Hfill).
  split; [|unfold MELODY_NOTE_OFF; lia].
  rewrite (fill_from_pitch df (Z.to_nat (total_length stream)) start output 0
             (pos n2) n2 []); [| lia | lia | | exact Hd | | exact Hfill].
  - unfold int16. rewrite Z.mod_small by lia. f_equal. lia.
  - by apply (note_frame_select stream).
  - intros m Hin Hpos.
    replace (Z.of_nat (length start) - 1) with (total_length stream) by lia.
    apply Hland; [done | lia].
Qed.

Lemma later_note_on_wins_witness :
  note_frame three_quarters = Ok [Row 0 4 60; Row 4 4 62; Row 8 4 64] /\
  total_length three_quarters = 12 /\
  [60; 129; 129; 129; 62; 129; 129; 129; 64; 129; 129; 129; 128]
    !! Z.to_nat (pos (Row 4 4 62)) = Some (pitch (Row 4 4 62)) /\
  pitch (Row 4 4 62) <> MELODY_NOTE_OFF.
Proof.
  do 2 (split; [reflexivity|]).
  apply (later_note_on_wins three_quarters [Row 0 4 60; Row 4 4 62; Row 8 4 64]
           (Row 0 4 60) (Row 4 4 62) _ eq_refl).
  - apply list_elem_of_here.
  - apply list_elem_of_further, list_elem_of_here.
  - by vm_compute.
  - reflexivity.
  - by vm_compute.
  - by vm_compute.
  - by vm_compute.
  - intros m Hm Hp [Hl|Hl];
      repeat (apply elem_of_cons in Hm as [->|Hm]; [simpl in Hp, Hl; lia|]);
      by apply elem_of_nil in Hm.
  - reflexivity.
Defined.

(** ** The decoder *)

Section ListLookup.

Context {A B : Type}.

Lemma lookup_map (f : A -> B) (l : list A) (i : nat) :
  map f l !! i = option_map f (l !! i).
Proof.
  revert i. induction l as [|x l IH]; intros [|i]; simpl; auto.
Qed.

Lemma lookup_zip (l : list A) (k : list B) (i : nat) (x : A) (y : B) :
  l !! i = Some x -> k !! i = Some y -> zip l k !! i = Some (x, y).
Proof.
  revert k i. induction l as [|a l IH]; intros [|b k] [|i]; simpl; try done.
  - by intros [= ->] [= ->].
  - apply IH.
Qed.

End ListLookup.

Section Frame.

(** The rows of the fresh frame: row [j] of the array is labelled
    [k + j], and its ['duration'] is that label. *)
Lemma frame_from_elem (note_array : list Z) (k : Z) (r : note_row) :
  r ∈ frame_from k note_array ->
  k <= index r /\ duration r = index r /\
  note_array !! Z.to_nat (index r - k) = Some (code r).
Proof.
  revert k. induction note_array as [|c l IH]; intros k; simpl.
  - intros H. by apply elem_of_nil in H.
  - intros H. apply elem_of_cons in H as [->|H]; simpl.
    + rewrite Z.sub_diag. split; [lia | by split].
    + destruct (IH _ H) as (H1 & H2 & H3). split; [lia|]. split; [done|].
      replace (Z.to_nat (index r - k)) with (S (Z.to_nat (index r - (k + 1))))
        by lia.
      exact H3.
Qed.

Lemma frame_from_lookup (note_array : list Z) (k : Z) (j : nat) (c : Z) :
  note_array !! j = Some c ->
  NoteRow (k + Z.of_nat j) c (k + Z.of_nat j) (k + Z.of_nat j)
    ∈ frame_from k note_array.
Proof.
  revert k j. induction note_array as [|a l IH]; intros k [|j]; simpl; try done.
  - intros [= ->]. rewrite Z.add_0_r. apply list_elem_of_here.
  - intros H. apply list_elem_of_further.
    pose proof (IH (k + 1) j H) as IH'.
    replace (k + 1 + Z.of_nat j) with (k + Z.of_nat (S j)) in IH' by lia.
    exact IH'.
Qed.

Lemma kept_sorted (note_array : list Z) (k : Z) :
  StronglySorted Z.lt
    (map index (filter (fun r => code r <> MELODY_NO_EVENT)
                       (frame_from k note_array))).
Proof.
  revert k. induction note_array as [|c l IH]; intros k; simpl.
  - constructor.
  - rewrite filter_cons. simpl.
    destruct (decide (c <> MELODY_NO_EVENT)); [|apply IH].
    simpl. constructor; [apply IH|].
    apply Forall_forall. intros x Hx.
    apply list_elem_of_In, in_map_iff in Hx as (r & <- & Hr).
    apply list_elem_of_In, list_elem_of_filter in Hr as [_ Hr].
    apply frame_from_elem in Hr. lia.
Qed.

Lemma kept_duration (note_array : list Z) :
  map duration (events note_array) = originalIndex note_array.
Proof.
  unfold originalIndex. apply map_ext_in. intros r Hr.
  apply list_elem_of_In, list_elem_of_filter in Hr as [_ Hr].
  by apply frame_from_elem in Hr as (_ & -> & _).
Qed.

(** [originalIndex] lists, in increasing order, exactly the positions of
    the array that do not hold NO_EVENT. *)
Lemma originalIndex_sorted (note_array : list Z) :
  StronglySorted Z.lt (originalIndex note_array).
Proof. apply kept_sorted. Qed.

Lemma originalIndex_elem (note_array : list Z) (k : Z) :
  k ∈ originalIndex note_array <->
  0 <= k /\ exists c, note_array !! Z.to_nat k = Some c /\ c <> MELODY_NO_EVENT.
Proof.
  unfold originalIndex, events. split.
  - intros H. apply list_elem_of_In, in_map_iff in H as (r & <- & Hr).
    apply list_elem_of_In, list_elem_of_filter in Hr as [Hc Hr].
    apply frame_from_elem in Hr as (H1 & _ & H3). rewrite Z.sub_0_r in H3.
    split; [lia | eauto].
  - intros (Hk & c & Hc & Hne). apply list_elem_of_In, in_map_iff.
    exists (NoteRow k c k k). split; [done|].
    apply list_elem_of_In, list_elem_of_filter. split; [done|].
    pose proof (frame_from_lookup _ 0 _ _ Hc) as H.
    by rewrite Z.add_0_l, Z2Nat.id in H.
Qed.

End Frame.

Section Durations.

Lemma durations_cons (a b : Z) (t : list Z) :
  durations (a :: b :: t) =
  (inject_Z (a - b) * inject_Z (-1) * (1 # 4))%Q :: durations (b :: t).
Proof. reflexivity. Qed.

Lemma backward_difference (a b : Z) :
  (inject_Z (a - b) * inject_Z (-1) * (1 # 4) == inject_Z (b - a) * (1 # 4))%Q.
Proof. unfold Qeq. simpl. lia. Qed.

Lemma durations_lookup (col : list Z) (i : nat) (k : Z) :
  col !! i = Some k ->
  exists d, durations col !! i = Some d /\
    match col !! S i with
    | Some k' => (d == inject_Z (k' - k) * (1 # 4))%Q
    | None => d = (1 # 4)%Q
    end.
Proof.
  revert i. induction col as [|a [|b t] IH]; intros i; [done| |].
  - destruct i as [|i]; [|done]. intros [= ->]. by exists (1 # 4)%Q.
  - destruct i as [|i].
    + intros [= ->]. rewrite durations_cons. eexists. split; [reflexivity|].
      apply backward_difference.
    + intros H. rewrite durations_cons. apply (IH i H).
Qed.

(** A backward difference of increasing labels is a positive number of
    grid units; so is the filled last entry. *)
Lemma durations_whole_ticks (col : list Z) :
  StronglySorted Z.lt col -> Forall whole_ticks (durations col).
Proof.
  induction 1 as [|a col Hs IH Ha]; [constructor|].
  destruct col as [|b t].
  - constructor; [|constructor]. exists 1. split; [lia | reflexivity].
  - rewrite durations_cons. constructor; [|exact IH].
    exists (b - a). split; [|apply backward_difference].
    apply Forall_cons in Ha as [Hab _]. lia.
Qed.

End Durations.

(** C7: row [i] of the decoder's frame is the entry of the array at
    [originalIndex[i]], with duration [(originalIndex[i+1] -
    originalIndex[i]) * 0.25] when a following row exists and exactly 0.25
    when it is the last row. *)
Theorem decoder_row_duration (note_array : list Z) (i : nat) (k : Z) :
  originalIndex note_array !! i = Some k ->
  exists c d,
    noteArrayToDataFrame note_array !! i = Some (c, d) /\
    note_array !! Z.to_nat k = Some c /\
    match originalIndex note_array !! S i with
    | Some k' => (d == inject_Z (k' - k) * (1 # 4))%Q
    | None => d = (1 # 4)%Q
    end.
Proof.
  intros Hk. unfold noteArrayToDataFrame. rewrite kept_duration.
  destruct (durations_lookup _ _ _ Hk) as (d & Hd & Hnext).
  unfold originalIndex in Hk. rewrite lookup_map in Hk.
  destruct (events note_array !! i) as [r|] eqn:Hr; [|discriminate].
  injection Hk as <-. exists (code r), d. split; [|split].
  - apply lookup_zip; [|exact Hd]. by rewrite lookup_map, Hr.
  - apply list_elem_of_lookup_2, list_elem_of_filter in Hr as [_ Hr].
    apply frame_from_elem in Hr as (_ & _ & Hc). by rewrite Z.sub_0_r in Hc.
  - exact Hnext.
Qed.

Lemma decoder_row_duration_witness :
  originalIndex [129; 60; 129; 129; 128; 129] !! 0%nat = Some 1 /\
  exists c d,
    noteArrayToDataFrame [129; 60; 129; 129; 128; 129] !! 0%nat = Some (c, d) /\
    [129; 60; 129; 129; 128; 129] !! Z.to_nat 1 = Some c /\
    match originalIndex [129; 60; 129; 129; 128; 129] !! 1%nat with
    | Some k' => (d == inject_Z (k' - 1) * (1 # 4))%Q
    | None => d = (1 # 4)%Q
    end.
Proof.
  split; [reflexivity|].
  apply (decoder_row_duration [129; 60; 129; 129; 128; 129] 0 1). reflexivity.
Defined.

(** C10: every row of the decoder's frame has a duration that is a whole
    number (at least one) of grid units: strictly positive and at least
    0.25. *)
Theorem decoder_duration_positive (note_array : list Z) (c : Z) (d : Q) :
  (c, d) ∈ noteArrayToDataFrame note_array ->
  (0 < d)%Q /\ (1 # 4 <= d)%Q /\ whole_ticks d.
Proof.
  unfold noteArrayToDataFrame. rewrite kept_duration. intros H.
  apply elem_of_zip_r in H.
  pose proof (durations_whole_ticks _ (originalIndex_sorted note_array)) as Hall.
  rewrite Forall_forall in Hall. specialize (Hall d H).
  destruct Hall as (n & Hn & Hd).
  split; [|split]; [| |by exists n]; rewrite Hd; unfold Qlt, Qle; simpl; lia.
Qed.

Lemma decoder_duration_positive_witness :
  (60, (3 # 4)%Q) ∈ noteArrayToDataFrame [129; 60; 129; 129; 128; 129] /\
  (0 < 3 # 4)%Q /\ (1 # 4 <= 3 # 4)%Q /\ whole_ticks (3 # 4).
Proof.
  assert (H : (60, (3 # 4)%Q) ∈ noteArrayToDataFrame [129; 60; 129; 129; 128; 129])
    by apply list_elem_of_here.
  split; [exact H|].
  exact (decoder_duration_positive _ _ _ H).
Defined.

(** ** The layer whitelist *)

Section Whitelist.

Local Open Scope string_scope.

Lemma pick_Ok (cfg : json) (keys : list string) (c : list (string * json)) :
  pick cfg keys = Ok c ->
  map fst c = keys /\
  Forall (fun kv => py_getitem cfg (fst kv) = Ok (snd kv)) c.
Proof.
  revert c. induction keys as [|k keys IH]; intros c; simpl.
  - intros [= <-]. split; [reflexivity | constructor].
  - intros H. apply bind_Ok in H as (v & Hv & H).
    apply bind_Ok in H as (kvs & Hk & [= <-]).
    destruct (IH _ Hk) as [IH1 IH2]. split.
    + simpl. by rewrite IH1.
    + constructor; [exact Hv | exact IH2].
Qed.

Lemma pick_total (cfg : json) (keys : list string) :
  (forall k, k ∈ keys -> exists v, py_getitem cfg k = Ok v) ->
  exists c, pick cfg keys = Ok c.
Proof.
  induction keys as [|k keys IH]; intros H; simpl; [eauto|].
  destruct (H k (list_elem_of_here _ _)) as [v ->].
  destruct IH as [c ->]; [|simpl; eauto].
  intros k' Hk'. apply H. by apply list_elem_of_further.
Qed.

Lemma layer_config_dispatch (class_name cfg : json) :
  layer_config class_name cfg =
  match documented_keys class_name with
  | Some keys => let* c := pick cfg keys in Ok (Some (JObj c))
  | None => Ok None
  end.
Proof.
  destruct class_name as [| | |s| |]; try reflexivity.
  unfold documented_keys, whitelist, layer_config, py_eq_str.
  cbn [keys_of].
  repeat match goal with
         | |- context [String.eqb s ?k] => destruct (String.eqb s k); [reflexivity|]
         end.
  reflexivity.
Qed.

Lemma compress_layers_Forall2 (items res : list json) :
  compress_layers items = Ok res <->
  Forall2 (fun l r => compress_layer l = Ok r) items res.
Proof.
  revert res. induction items as [|l items IH]; intros res; simpl.
  - split; [intros [= <-]; constructor | by inversion 1].
  - split.
    + intros H. apply bind_Ok in H as (r & Hr & H).
      apply bind_Ok in H as (rs & Hrs & [= <-]).
      constructor; [done | by apply IH].
    + inversion 1 as [|? r ? rs Hr Hrs]; subst.
      apply IH in Hrs. by rewrite Hr, Hrs.
Qed.

Lemma compress_layers_returns (items : list json) :
  (exists res, compress_layers items = Ok res) <->
  Forall (fun l => exists r, compress_layer l = Ok r) items.
Proof.
  induction items as [|l items IH]; simpl.
  - split; [constructor | eauto].
  - split.
    + intros [res H]. apply bind_Ok in H as (r & Hr & H).
      apply bind_Ok in H as (rs & Hrs & _).
      constructor; [eauto | apply IH; eauto].
    + intros H. apply Forall_cons in H as [[r ->] H].
      apply IH in H as [rs ->]. simpl. eauto.
Qed.

Lemma compress_layer_compressed (layer res : json) :
  compress_layer layer = Ok res -> compressed_as layer res.
Proof.
  unfold compress_layer. intros H.
  apply bind_Ok in H as (cfg & Hcfg & H).
  apply bind_Ok in H as (cn & Hcn & H).
  apply bind_Ok in H as (lc & Hlc & H).
  exists cfg, cn. split; [done|]. split; [done|].
  rewrite layer_config_dispatch in Hlc.
  destruct (documented_keys cn) as [keys|].
  - apply bind_Ok in Hlc as (c & Hc & [= <-]). injection H as <-.
    exists c. split; [reflexivity | by apply pick_Ok].
  - injection Hlc as <-. by injection H as <-.
Qed.

Lemma compress_layer_returns (layer : json) :
  (exists res, compress_layer layer = Ok res) <-> compressible layer.
Proof.
  split.
  - intros [res H]. unfold compress_layer in H.
    apply bind_Ok in H as (cfg & Hcfg & H).
    apply bind_Ok in H as (cn & Hcn & H).
    apply bind_Ok in H as (lc & Hlc & _).
    exists cfg, cn. split; [done|]. split; [done|].
    intros keys Hkeys k Hk. rewrite layer_config_dispatch, Hkeys in Hlc.
    apply bind_Ok in Hlc as (c & Hc & _).
    apply pick_Ok in Hc as [Hfst Hall]. subst keys.
    apply list_elem_of_In, in_map_iff in Hk as ([k' v] & <- & Hin).
    rewrite Forall_forall in Hall. exists v.
    by apply (Hall (k', v)), list_elem_of_In.
  - intros (cfg & cn & Hcfg & Hcn & Hkeys). unfold compress_layer.
    rewrite Hcfg, Hcn. simpl. rewrite layer_config_dispatch.
    destruct (documented_keys cn) as [keys|]; [|simpl; eauto].
    destruct (pick_total cfg keys (Hkeys keys eq_refl)) as [c ->]. simpl. eauto.
Qed.

Lemma documented_keys_None (class_name : json) :
  documented_keys class_name = None <->
  forall kind, kind ∈ map fst whitelist -> class_name <> JStr kind.
Proof.
  split.
  - intros H kind Hk ->. simpl in H, Hk.
    repeat (apply elem_of_cons in Hk as [->|Hk]; [discriminate H|]).
    by apply elem_of_nil in Hk.
  - intros H. destruct class_name as [| | |s| |]; try reflexivity.
    unfold documented_keys.
    destruct (keys_of s whitelist) as [keys|] eqn:E; [exfalso|reflexivity].
    unfold whitelist in E. simpl in E.
    repeat match type of E with
           | (if String.eqb s ?k then _ else _) = _ =>
               destruct (String.eqb_spec s k) as [->|_];
               [apply (H k); [|reflexivity];
                apply list_elem_of_In; simpl; tauto|]
           end.
    discriminate E.
Qed.

End Whitelist.

Section CompressLayer.

Local Open Scope string_scope.

(** C8, as stated, fails: a layer description of a kind that is not
    recognized and that has no ["config"] key makes the compressor raise
    KeyError, at line 210, before the kind is looked at. *)
Lemma unrecognized_kind_without_config :
  ~ unrecognized_kind_accepted (JObj [("class_name", JStr "Dropout")]).
Proof.
  intros H. specialize (H (JStr "Dropout") eq_refl eq_refl).
  vm_compute in H. discriminate H.
Qed.

(** C8 (amended): on a model description whose ["config"] has a list of
    ["layers"], the compressor returns exactly when every layer
    description has the keys ["config"] and ["class_name"] and, if its kind
    is one of the eight recognized ones, its config has every key kept for
    that kind.  What it returns is [{"config": {"layers": [...]}}] with one
    entry per layer, in order: the entry of a kind that is not recognized
    has the class name and no ["config"] key, the entry of a recognized kind
    has a config with exactly the documented keys and the layer's values. *)
Theorem compressConfig_whitelist (data config layers : json)
        (items : list json) :
  py_getitem data "config" = Ok config ->
  py_getitem config "layers" = Ok layers ->
  py_iter layers = Ok items ->
  ((exists res, compressConfig data = Ok res) <-> Forall compressible items) /\
  (forall res, compressConfig data = Ok res ->
     exists entries,
       res = JObj [("config", JObj [("layers", JArr entries)])] /\
       Forall2 compressed_as items entries).
Proof.
  intros Hc Hl Hi. unfold compressConfig. rewrite Hc. simpl.
  rewrite Hl. simpl. rewrite Hi. simpl. split; [split|].
  - intros [res H]. apply bind_Ok in H as (entries & He & _).
    assert (Hall : Forall (fun l => exists r, compress_layer l = Ok r) items)
      by (apply compress_layers_returns; eauto).
    rewrite Forall_forall in Hall. apply Forall_forall. intros l Hin.
    by apply compress_layer_returns, Hall.
  - intros Hall.
    assert (Hret : exists entries, compress_layers items = Ok entries).
    { apply compress_layers_returns, Forall_forall. intros l Hin.
      rewrite Forall_forall in Hall. by apply compress_layer_returns, Hall. }
    destruct Hret as [entries ->]. simpl. eauto.
  - intros res H. apply bind_Ok in H as (entries & He & [= <-]).
    exists entries. split; [reflexivity|].
    apply compress_layers_Forall2 in He.
    eapply Forall2_impl; [exact He|]. apply compress_layer_compressed.
Qed.

Lemma compressConfig_whitelist_witness :
  ((exists res, compressConfig dense_softmax = Ok res) <->
   Forall compressible
     [JObj [("class_name", JStr "Dense");
            ("config",
             JObj [("name", JStr "dense");
                   ("trainable", JBool true);
                   ("units", JNum 2);
                   ("activation", JStr "linear");
                   ("use_bias", JBool true)])];
      JObj [("class_name", JStr "Activation");
            ("config",
             JObj [("name", JStr "activation");
                   ("activation", JStr "softmax")])]]) /\
  (forall res, compressConfig dense_softmax = Ok res ->
     exists entries,
       res = JObj [("config", JObj [("layers", JArr entries)])] /\
       Forall2 compressed_as
         [JObj [("class_name", JStr "Dense");
                ("config",
                 JObj [("name", JStr "dense");
                       ("trainable", JBool true);
                       ("units", JNum 2);
                       ("activation", JStr "linear");
                       ("use_bias", JBool true)])];
          JObj [("class_name", JStr "Activation");
                ("config",
                 JObj [("name", JStr "activation");
                       ("activation", JStr "softmax")])]]
         entries).
Proof.
  exact (compressConfig_whitelist dense_softmax _ _ _ eq_refl eq_refl eq_refl).
Defined.

Lemma compress_layer_entry (layer res : json) :
  compress_layer layer = Ok res -> layer_entry res.
Proof.
  unfold compress_layer. intros H.
  apply bind_Ok in H as (cfg & _ & H).
  apply bind_Ok in H as (cn & _ & H).
  apply bind_Ok in H as (lc & Hlc & H).
  exists cn. destruct lc as [c|]; injection H as <-; [right | by left].
  unfold layer_config in Hlc.
  repeat match type of Hlc with
         | (if ?b then _ else _) = _ => destruct b
         end;
    try discriminate Hlc;
    apply bind_Ok in Hlc as (kvs & _ & [= <-]); by exists kvs.
Qed.

Lemma compress_layers_entries (layers res : list json) :
  compress_layers layers = Ok res -> Forall layer_entry res.
Proof.
  revert res. induction layers as [|l layers IH]; intros res; simpl.
  - intros [= <-]. constructor.
  - intros H. apply bind_Ok in H as (r & Hr & H).
    apply bind_Ok in H as (rs & Hrs & [= <-]).
    constructor; [by apply (compress_layer_entry l) | by apply IH].
Qed.

(** C1, as stated, fails: in the object written for a dense layer with a
    softmax activation, ["layers_config"] has the single key ["config"];
    the ["layers"] array is one level further down. *)
Lemma layers_under_config :
  ~ layers_at_top_level small_model.
Proof.
  intros H. destruct (H _ eq_refl) as (lc & layers & H1 & H2).
  vm_compute in H1. injection H1 as <-. discriminate H2.
Qed.

(** C1 (amended): the written object has exactly the three keys
    ["model_name"] (the constant "musicnetgen"), ["layers_config"] and
    ["weight_b64"] (the base64 text of the packed weights), and
    ["layers_config"] maps to the object [{"config": {"layers": [...]}}]
    whose entries carry ["class_name"] and, when present, ["config"]. *)
Theorem export_layout (model : keras_model) (e : export) :
  get_model_for_export model = Ok e ->
  exists layers,
    written e =
      JObj [("model_name", JStr "musicnetgen");
            ("layers_config", JObj [("config", JObj [("layers", JArr layers)])]);
            ("weight_b64", JStr (b64encode (pack_weights (get_weights model))))] /\
    Forall layer_entry layers.
Proof.
  unfold get_model_for_export, compressConfig. intros H.
  apply bind_Ok in H as (cc & Hcc & [= <-]).
  apply bind_Ok in Hcc as (config & _ & Hcc).
  apply bind_Ok in Hcc as (ls & _ & Hcc).
  apply bind_Ok in Hcc as (items & _ & Hcc).
  apply bind_Ok in Hcc as (layers & Hl & [= <-]).
  exists layers. split; [reflexivity | by apply (compress_layers_entries items)].
Qed.

Lemma export_layout_witness :
  exists layers,
    JObj [("model_name", JStr "musicnetgen");
          ("layers_config",
           JObj [("config",
                  JObj [("layers",
                         JArr [JObj [("class_name", JStr "Dense");
                                     ("config", JObj [("units", JNum 2);
                                                      ("activation", JStr "linear")])];
                               JObj [("class_name", JStr "Activation")]])])]);
          ("weight_b64", JStr "AACAPwAAgD8AAAAAAAAAAA==")] =
    JObj [("model_name", JStr "musicnetgen");
          ("layers_config", JObj [("config", JObj [("layers", JArr layers)])]);
          ("weight_b64", JStr (b64encode (pack_weights (get_weights small_model))))] /\
    Forall layer_entry layers.
Proof.
  exact (export_layout small_model _ eq_refl).
Defined.

End CompressLayer.

(** ** The weight packer *)

Section Packer.

Lemma struct_pack_f_length (x : py_float) : length (struct_pack_f x) = 4%nat.
Proof. reflexivity. Qed.

Lemma flat_map_length_const {A B : Type} (f : A -> list B) (n : nat) (l : list A) :
  (forall x, length (f x) = n) -> length (flat_map f l) = (n * length l)%nat.
Proof.
  intros Hf. induction l as [|x l IH]; simpl; [lia|].
  rewrite length_app, Hf, IH. lia.
Qed.

Lemma flat_map_concat {A B : Type} (f : A -> list B) (ls : list (list A)) :
  flat_map (flat_map f) ls = flat_map f (concat ls).
Proof.
  induction ls as [|l ls IH]; simpl; [reflexivity|].
  by rewrite IH, flat_map_app.
Qed.

(** The buffer is the concatenation of the encodings of all values, layer
    by layer, group by group. *)
Lemma pack_weights_values (weight_np : list (list (list py_float))) :
  pack_weights weight_np = flat_map struct_pack_f (weight_values weight_np).
Proof.
  unfold pack_weights, pack_layer, pack_group, weight_values.
  induction weight_np as [|layer rest IH]; simpl; [reflexivity|].
  by rewrite IH, flat_map_concat, concat_app, flat_map_app.
Qed.

(** C4, as stated, fails: a kernel holding NaN and +infinity is packed and
    exported like any other. *)
Lemma non_finite_weights_exported :
  ~ rejects_non_finite nan_model.
Proof.
  intros H. destruct (H eq_refl) as [e He]. discriminate He.
Qed.

(** An infinity or a NaN is packed as one: the exponent field of its four
    bytes is all ones. *)
Lemma non_finite_packed (x : py_float) :
  finite_value x = false -> exponent_field (float32_bits (to_float32 x)) = 255.
Proof.
  destruct x as [s|s m e|s|s fraction]; try discriminate; intros _.
  - by destruct s.
  - unfold exponent_field. simpl to_float32. unfold float32_bits.
    set (f := (2 ^ 22 + (fraction / 2 ^ 29) mod 2 ^ 22) mod 2 ^ 23).
    assert (Hf : 0 <= f < 2 ^ 23) by (apply Z.mod_pos_bound; lia).
    rewrite Z.shiftr_div_pow2 by lia.
    destruct s; unfold sign_bit.
    + replace ((2 ^ 31 + 255 * 2 ^ 23 + f) / 2 ^ 23) with 511; [reflexivity|].
      apply (Z.div_unique_pos _ _ _ f); lia.
    + replace ((0 + 255 * 2 ^ 23 + f) / 2 ^ 23) with 255; [reflexivity|].
      apply (Z.div_unique_pos _ _ _ f); lia.
Qed.

(** C4 (amended): a non-finite value does not make the packer fail.  The
    packer validates nothing: every value of every parameter group, finite,
    infinite or NaN, contributes the four bytes of its single-precision
    encoding, in layer, group and row-major order, so the buffer has four
    bytes per value; for all-finite inputs it succeeds like for any other. *)
Theorem pack_weights_unvalidated (weight_np : list (list (list py_float))) :
  pack_weights weight_np = flat_map struct_pack_f (weight_values weight_np) /\
  length (pack_weights weight_np) = (4 * length (weight_values weight_np))%nat.
Proof.
  split; [apply pack_weights_values|].
  rewrite pack_weights_values.
  apply flat_map_length_const, struct_pack_f_length.
Qed.

End Packer.

(** * Further properties *)

(** ** Rounding to the grid *)

Section RoundHalfEven.

(** [np_round q] is within one half of [q], and even on a tie. *)
Lemma np_round_spec (q : Q) :
  let n := Qnum q in
  let d := Z.pos (Qden q) in
  let r := np_round q in
  2 * r * d - d <= 2 * n <= 2 * r * d + d /\
  (2 * n = 2 * r * d + d \/ 2 * n = 2 * r * d - d -> Z.even r = true).
Proof.
  destruct q as [n d]. unfold np_round. simpl.
  pose proof (Z.div_mod n (Z.pos d) ltac:(lia)) as Hdm.
  pose proof (Z.mod_pos_bound n (Z.pos d) ltac:(lia)) as Hm.
  set (f := n / Z.pos d) in *. set (m := n mod Z.pos d) in *.
  destruct (2 * m <? Z.pos d) eqn:H1.
  - apply Z.ltb_lt in H1. split; [nia|]. intros [H|H]; nia.
  - apply Z.ltb_ge in H1. destruct (Z.pos d <? 2 * m) eqn:H2.
    + apply Z.ltb_lt in H2. split; [nia|]. intros [H|H]; nia.
    + apply Z.ltb_ge in H2. destruct (Z.even f) eqn:He.
      * split; [nia | auto].
      * split; [nia|]. intros _. rewrite Z.even_add, He. reflexivity.
Qed.

Lemma np_round_mono (p q : Q) : (p <= q)%Q -> np_round p <= np_round q.
Proof.
  intros Hle. unfold Qle in Hle.
  destruct (np_round_spec p) as [[Hp1 Hp2] Hpe].
  destruct (np_round_spec q) as [[Hq1 Hq2] Hqe].
  set (r1 := np_round p) in *. set (r2 := np_round q) in *.
  set (n1 := Qnum p) in *. set (n2 := Qnum q) in *.
  set (d1 := Z.pos (Qden p)) in *. set (d2 := Z.pos (Qden q)) in *.
  assert (Hd1 : 0 < d1) by (unfold d1; lia).
  assert (Hd2 : 0 < d2) by (unfold d2; lia).
  destruct (Z_le_gt_dec r1 r2) as [|Hgt]; [done|exfalso].
  assert (H1 : (2 * r1 - 1) * (d1 * d2) <= 2 * n1 * d2) by nia.
  assert (H2 : 2 * n2 * d1 <= (2 * r2 + 1) * (d1 * d2)) by nia.
  assert (H3 : 2 * n1 * d2 <= 2 * n2 * d1) by nia.
  assert (H4 : 0 < d1 * d2) by nia.
  assert (Hr : r1 = r2 + 1) by nia.
  assert (Ht1 : 2 * n1 = 2 * r1 * d1 - d1) by nia.
  assert (Ht2 : 2 * n2 = 2 * r2 * d2 + d2) by nia.
  specialize (Hpe (or_intror Ht1)). specialize (Hqe (or_introl Ht2)).
  rewrite Hr, Z.even_add, Hqe in Hpe. discriminate Hpe.
Qed.

(** A whole number of ticks is not moved by the rounding. *)
Lemma np_round_whole (q : Q) (k : Z) : (q == inject_Z k)%Q -> np_round q = k.
Proof.
  intros Hq. unfold Qeq in Hq. simpl in Hq.
  destruct (np_round_spec q) as [[H1 H2] _].
  set (r := np_round q) in *. set (d := Z.pos (Qden q)) in *.
  assert (Hd : 0 < d) by (unfold d; lia).
  rewrite Z.mul_1_r in Hq. rewrite Hq in H1, H2. nia.
Qed.

Lemma ticks_on_grid (q : Q) (k : Z) :
  (q == inject_Z k * grid)%Q -> np_round (q / grid) = k.
Proof.
  intros Hq. apply np_round_whole. rewrite Hq. unfold grid. field.
Qed.

Lemma ticks_mono (p q : Q) :
  (p <= q)%Q -> np_round (p / grid) <= np_round (q / grid).
Proof.
  intros H. apply np_round_mono. unfold Qdiv.
  apply Qmult_le_compat_r; [exact H | by vm_compute].
Qed.

End RoundHalfEven.

(** ** The encoded array, entry by entry *)

Section SetItem.

Lemma np_setitem_length (a a' : list Z) (k v : Z) :
  np_setitem a k v = Ok a' -> length a' = length a.
Proof.
  unfold np_setitem. destruct (_ || _); [discriminate|].
  intros [= <-]. apply length_insert.
Qed.

Lemma np_setitem_in_range (a : list Z) (k v : Z) :
  0 <= k < Z.of_nat (length a) ->
  np_setitem a k v = Ok (<[Z.to_nat k := int16 v]> a).
Proof.
  intros Hk. unfold np_setitem.
  destruct (k <? - Z.of_nat (length a)) eqn:H1; [apply Z.ltb_lt in H1; lia|].
  destruct (Z.of_nat (length a) <=? k) eqn:H2; [apply Z.leb_le in H2; lia|].
  destruct (k <? 0) eqn:H3; [apply Z.ltb_lt in H3; lia|]. reflexivity.
Qed.

Lemma fill_tick_same_length (df : list row) (output output' : list Z) (i : Z) :
  fill_tick df output i = Ok output' -> length output' = length output.
Proof.
  unfold fill_tick. destruct (select df i) as [|n rest]; [by intros [= <-]|].
  intros H. apply bind_Ok in H as (o1 & H1 & H2).
  apply np_setitem_length in H1, H2. congruence.
Qed.

Lemma fill_from_same_length (df : list row) (count : nat)
      (output output' : list Z) (i : Z) :
  fill_from df count i output = Ok output' -> length output' = length output.
Proof.
  revert output i. induction count as [|count IH]; intros output i; simpl.
  - by intros [= <-].
  - intros H. apply bind_Ok in H as (o1 & H1 & H2).
    apply fill_tick_same_length in H1. apply IH in H2. congruence.
Qed.

End SetItem.

Section TotalLength.

Lemma highestTime_nonneg (stream : list element) : (0 <= highestTime stream)%Q.
Proof.
  destruct stream as [|e stream]; simpl; [apply Qle_refl|].
  eapply Qle_trans; [|apply Q.le_max_r].
  induction stream as [|x stream IH]; simpl; [apply Qle_refl|].
  eapply Qle_trans; [exact IH | apply Q.le_max_r].
Qed.

Lemma highestTime_upper (stream : list element) (e : element) :
  e ∈ stream -> (offset e + quarterLength e <= highestTime stream)%Q.
Proof.
  induction stream as [|x stream IH]; intros H; [by apply elem_of_nil in H|].
  simpl. apply elem_of_cons in H as [->|H].
  - apply Q.le_max_l.
  - eapply Qle_trans; [by apply IH | apply Q.le_max_r].
Qed.

Lemma total_length_nonneg (stream : list element) : 0 <= total_length stream.
Proof. apply ticks_nonneg, highestTime_nonneg. Qed.

End TotalLength.

Section LoopInvariant.

Variable df : list row.
Hypothesis dur_nonneg : Forall (fun r => 0 <= dur r) df.
Hypothesis one_per_tick : forall n, n ∈ df -> select df (pos n) = [n].

Lemma select_elem (i : Z) (n : row) (rest : list row) :
  select df i = n :: rest -> n ∈ df /\ pos n = i /\ 0 <= dur n.
Proof.
  intros Hs. assert (Hn : n ∈ select df i) by (rewrite Hs; apply list_elem_of_here).
  apply list_elem_of_filter in Hn as [Hp Hn]. split; [done|]. split; [done|].
  rewrite Forall_forall in dur_nonneg. by apply dur_nonneg.
Qed.

Lemma select_only (i : Z) (n m : row) (rest : list row) :
  select df i = n :: rest -> m ∈ df -> pos m = i -> m = n.
Proof.
  intros Hs Hm Hp. pose proof (one_per_tick m Hm) as H1.
  rewrite Hp, Hs in H1. by injection H1 as ->.
Qed.

Lemma select_nil (i : Z) (m : row) : select df i = [] -> m ∈ df -> pos m <> i.
Proof.
  intros Hs Hm Hp. assert (H : m ∈ select df i) by by apply list_elem_of_filter.
  rewrite Hs in H. by apply elem_of_nil in H.
Qed.

Lemma ends_at_true (t j : Z) :
  ends_at df t j = true <->
  exists n, n ∈ df /\ 0 <= pos n < t /\ pos n + dur n = j.
Proof.
  unfold ends_at. rewrite existsb_exists. split.
  - intros (n & Hn & H). apply andb_true_iff in H as [H H3].
    apply andb_true_iff in H as [H1 H2].
    exists n. split; [by apply list_elem_of_In|]. lia.
  - intros (n & Hn & Hp & He). exists n. split; [by apply list_elem_of_In|].
    apply andb_true_iff. split; [apply andb_true_iff; split|]; lia.
Qed.

Lemma ends_at_step (i j : Z) :
  0 <= i ->
  ends_at df (i + 1) j =
  ends_at df i j ||
  match select df i with
  | n :: _ => pos n + dur n =? j
  | [] => false
  end.
Proof.
  intros Hi. apply eq_iff_eq_true.
  rewrite orb_true_iff, !ends_at_true. split.
  - intros (n & Hn & Hp & He).
    destruct (Z.eq_dec (pos n) i) as [Heq|Hne].
    + right. destruct (select df i) as [|m rest] eqn:Hs.
      * by destruct (select_nil _ _ Hs Hn).
      * rewrite <- (select_only _ _ _ _ Hs Hn Heq). lia.
    + left. exists n. split; [done | lia].
  - intros [(n & Hn & Hp & He)|H].
    + exists n. split; [done | lia].
    + destruct (select df i) as [|m rest] eqn:Hs; [discriminate|].
      destruct (select_elem _ _ _ Hs) as (Hm & Hp & _).
      exists m. split; [done | lia].
Qed.

Lemma visited_onset_step (i j : Z) :
  0 <= i ->
  visited_onset df (i + 1) j =
  if j =? i then head (select df i) else visited_onset df i j.
Proof.
  intros Hi. unfold visited_onset.
  destruct (Z.eqb_spec j i) as [->|Hne].
  - destruct (select df i) as [|n rest]; [reflexivity|]. simpl.
    destruct (0 <=? i) eqn:H1; [|apply Z.leb_gt in H1; lia].
    destruct (i <? i + 1) eqn:H2; [reflexivity | apply Z.ltb_ge in H2; lia].
  - destruct (select df j) as [|n rest]; [reflexivity|].
    destruct (0 <=? j); [|reflexivity]. simpl.
    destruct (j <? i + 1) eqn:H1, (j <? i) eqn:H2; try reflexivity;
      [apply Z.ltb_lt in H1; apply Z.ltb_ge in H2
      |apply Z.ltb_ge in H1; apply Z.ltb_lt in H2]; lia.
Qed.

Lemma filled_to_start (len : nat) :
  filled_to df 0 (replicate len (int16 MELODY_NO_EVENT)).
Proof.
  intros j Hj. rewrite length_replicate in Hj.
  rewrite lookup_replicate_2 by done. f_equal.
  unfold encoded_value, visited_onset.
  assert (He : ends_at df 0 (Z.of_nat j) = false).
  { destruct (ends_at df 0 (Z.of_nat j)) eqn:E; [|reflexivity].
    apply ends_at_true in E as (n & _ & Hp & _). lia. }
  rewrite He. destruct (select df (Z.of_nat j)); [reflexivity|].
  destruct (Z.of_nat j <? 0) eqn:Hlt; [apply Z.ltb_lt in Hlt; lia|].
  by rewrite andb_false_r.
Qed.

Lemma filled_to_step (i : Z) (output output' : list Z) :
  0 <= i -> filled_to df i output -> fill_tick df output i = Ok output' ->
  filled_to df (i + 1) output'.
Proof.
  intros Hi Hinv H j Hj.
  pose proof (fill_tick_same_length _ _ _ _ H) as Hlen. rewrite Hlen in Hj.
  unfold encoded_value. rewrite visited_onset_step, ends_at_step by done.
  unfold fill_tick in H.
  destruct (select df i) as [|n rest] eqn:Hs.
  - injection H as <-. rewrite orb_false_r. rewrite (Hinv j Hj).
    unfold encoded_value. destruct (Z.eqb_spec (Z.of_nat j) i) as [Heq|_]; [|done].
    simpl. unfold visited_onset. by rewrite Heq, Hs.
  - destruct (select_elem _ _ _ Hs) as (Hn & Hp & Hd).
    apply bind_Ok in H as (o1 & H1 & H2).
    apply np_setitem_inv in H1 as [Hb1 ->]; [|lia].
    apply np_setitem_inv in H2 as [Hb2 ->]; [|lia].
    rewrite length_insert in Hb2. rewrite Hp. simpl.
    destruct (Z.eqb_spec (Z.of_nat j) i) as [Heq|Hne].
    + unfold left_at_onset. destruct (Z.eqb_spec (dur n) 0) as [Hz|Hnz].
      * rewrite Hz, Z.add_0_r.
        replace (Z.to_nat i) with j by lia.
        by rewrite list_lookup_insert_eq by (rewrite length_insert; lia).
      * rewrite list_lookup_insert_ne by lia.
        replace (Z.to_nat i) with j by lia.
        by rewrite list_lookup_insert_eq by lia.
    + destruct (Z.eqb_spec (i + dur n) (Z.of_nat j)) as [He|Hne2].
      * replace (Z.to_nat (i + dur n)) with j by lia.
        rewrite list_lookup_insert_eq by (rewrite length_insert; lia).
        rewrite orb_true_r.
        destruct (visited_onset df i (Z.of_nat j)) as [m|] eqn:Hv; [|reflexivity].
        exfalso. unfold visited_onset in Hv.
        destruct (select df (Z.of_nat j)); [discriminate|].
        destruct (0 <=? Z.of_nat j); [|discriminate]. simpl in Hv.
        destruct (Z.of_nat j <? i) eqn:Hlt; [|discriminate].
        apply Z.ltb_lt in Hlt. lia.
      * rewrite !list_lookup_insert_ne by lia. rewrite orb_false_r.
        apply (Hinv j Hj).
Qed.

Lemma filled_to_run (count : nat) (i : Z) (output output' : list Z) :
  0 <= i -> filled_to df i output -> fill_from df count i output = Ok output' ->
  filled_to df (i + Z.of_nat count) output'.
Proof.
  revert i output. induction count as [|count IH]; intros i output Hi Hinv; simpl.
  - intros [= <-]. by rewrite Z.add_0_r.
  - intros H. apply bind_Ok in H as (o1 & H1 & H2).
    replace (i + Z.of_nat (S count)) with (i + 1 + Z.of_nat count) by lia.
    apply (IH (i + 1) o1); [lia | by apply (filled_to_step i output) | done].
Qed.

(** The loop returns when every visited row ends inside the array. *)
Lemma fill_from_returns (count : nat) (i : Z) (output : list Z) :
  0 <= i -> i + Z.of_nat count <= Z.of_nat (length output) ->
  (forall n, n ∈ df -> i <= pos n < i + Z.of_nat count ->
             pos n + dur n < Z.of_nat (length output)) ->
  exists output', fill_from df count i output = Ok output'.
Proof.
  revert i output. induction count as [|count IH]; intros i output Hi Hlen Hb; simpl.
  - eauto.
  - assert (Ht : exists o1, fill_tick df output i = Ok o1 /\ length o1 = length output).
    { unfold fill_tick. destruct (select df i) as [|n rest] eqn:Hs; [eauto|].
      destruct (select_elem _ _ _ Hs) as (Hn & Hp & Hd).
      rewrite np_setitem_in_range by lia. simpl.
      rewrite np_setitem_in_range.
      - eexists. split; [reflexivity|]. by rewrite !length_insert.
      - rewrite length_insert. specialize (Hb n Hn). lia. }
    destruct Ht as (o1 & -> & Hl). simpl.
    apply IH; [lia | rewrite Hl; lia |].
    intros n Hn Hp. rewrite Hl. apply Hb; [done | lia].
Qed.

End LoopInvariant.

Section EncoderLemmas.

Lemma note_frame_one_per_tick (stream : list element) (df : list row) :
  note_frame stream = Ok df -> forall n, n ∈ df -> select df (pos n) = [n].
Proof. intros H n Hn. by apply (note_frame_select stream). Qed.

Lemma encoder_inv (stream : list element) (output : list Z) :
  streamToNoteArray stream = Ok output ->
  exists df,
    note_frame stream = Ok df /\
    fill_from df (Z.to_nat (total_length stream)) 0
      (replicate (Z.to_nat (total_length stream + 1)) (int16 MELODY_NO_EVENT)) =
    Ok output.
Proof.
  unfold streamToNoteArray. intros H.
  apply bind_Ok in H as (df & Hf & H). exists df. split; [done|].
  apply bind_Ok in H as (o0 & H0 & H).
  unfold np_full in H0. destruct (_ <? 0); [discriminate|]. by injection H0 as <-.
Qed.

Lemma encoder_length (stream : list element) (output : list Z) :
  streamToNoteArray stream = Ok output ->
  Z.of_nat (length output) = total_length stream + 1.
Proof.
  intros H. apply encoder_inv in H as (df & _ & H).
  apply fill_from_same_length in H. rewrite H, length_replicate.
  pose proof (total_length_nonneg stream). lia.
Qed.

Lemma encoder_entry (stream : list element) (df : list row)
      (output : list Z) (j : Z) :
  well_timed stream -> note_frame stream = Ok df ->
  streamToNoteArray stream = Ok output -> 0 <= j <= total_length stream ->
  output !! Z.to_nat j = Some (encoded_value df (total_length stream) j).
Proof.
  intros Hw Hf H Hj. pose proof (encoder_length _ _ H) as Hlen.
  apply encoder_inv in H as (df' & Hf' & H).
  rewrite Hf in Hf'. injection Hf' as <-.
  pose proof (total_length_nonneg stream) as Ht.
  pose proof (filled_to_run df (note_frame_dur_nonneg _ _ Hw Hf)
                (note_frame_one_per_tick _ _ Hf)
                (Z.to_nat (total_length stream)) 0 _ output
                (Z.le_refl 0) (filled_to_start df _) H) as Hfill.
  rewrite Z.add_0_l, Z2Nat.id in Hfill by done.
  rewrite (Hfill (Z.to_nat j)) by lia. by rewrite Z2Nat.id by lia.
Qed.

Lemma encoder_returns_when (stream : list element) (df : list row) :
  well_timed stream -> note_frame stream = Ok df ->
  (forall n, n ∈ df -> 0 <= pos n < total_length stream ->
             pos n + dur n <= total_length stream) ->
  exists output, streamToNoteArray stream = Ok output.
Proof.
  intros Hw Hf Hb. unfold streamToNoteArray. rewrite Hf. simpl.
  pose proof (total_length_nonneg stream) as Ht.
  unfold np_full.
  destruct (total_length stream + 1 <? 0) eqn:Hneg; [apply Z.ltb_lt in Hneg; lia|].
  simpl.
  apply (fill_from_returns df (note_frame_dur_nonneg _ _ Hw Hf)).
  - lia.
  - rewrite length_replicate. lia.
  - intros n Hn Hp. rewrite length_replicate.
    specialize (Hb n Hn). lia.
Qed.

End EncoderLemmas.

Section EncodedArray.

(** X1: an encoded array has one entry per tick of the rounded highest time,
    plus one. *)
Theorem encoder_array_length (stream : list element) (output : list Z) :
  streamToNoteArray stream = Ok output ->
  Z.of_nat (length output) = total_length stream + 1.
Proof. apply encoder_length. Qed.

Lemma encoder_array_length_witness :
  Z.of_nat (length [128; 129; 129; 129; 62; 129; 129; 129; 128]) =
  total_length short_then_quarter + 1.
Proof. exact (encoder_array_length short_then_quarter _ eq_refl). Defined.

(** X2: every entry of an encoded array is determined by the retained rows:
    a tick below the total length where a row starts holds that row's pitch
    (NOTE_OFF if the row lasts 0 ticks); any other index holds NOTE_OFF if a
    row that starts below the total length ends there, and NO_EVENT if none
    does. *)
Theorem encoder_entries (stream : list element) (df : list row)
        (output : list Z) (j : nat) :
  well_timed stream -> note_frame stream = Ok df ->
  streamToNoteArray stream = Ok output -> (j < length output)%nat ->
  output !! j = Some (encoded_value df (total_length stream) (Z.of_nat j)).
Proof.
  intros Hw Hf H Hj. pose proof (encoder_length _ _ H) as Hlen.
  rewrite <- (encoder_entry stream df output (Z.of_nat j) Hw Hf H) by lia.
  by rewrite Nat2Z.id.
Qed.

Lemma encoder_entries_witness :
  [60; 129; 129; 129; 128; 129; 129; 129; 64; 129; 129; 129; 128] !! 4%nat =
  Some (encoded_value [Row 0 4 60; Row 4 0 62; Row 8 4 64]
          (total_length quarter_short_quarter) (Z.of_nat 4)).
Proof.
  assert (Hw : well_timed quarter_short_quarter) by timed.
  apply (encoder_entries quarter_short_quarter _ _ 4 Hw eq_refl eq_refl).
  simpl. lia.
Defined.

(** X3: on a stream with non-negative durations for which the frame of
    retained rows is built (lines 40-55 do not raise), the encoder returns an
    array exactly when every retained row whose tick is in [0, total length)
    ends at or before the total length; otherwise it raises. *)
Theorem encoder_returns_iff (stream : list element) (df : list row) :
  well_timed stream -> note_frame stream = Ok df ->
  (exists output, streamToNoteArray stream = Ok output) <->
  (forall n, n ∈ df -> 0 <= pos n < total_length stream ->
             pos n + dur n <= total_length stream).
Proof.
  intros Hw Hf. split.
  - intros [output H] n Hn Hp. by apply (encoder_returns_in_bounds stream df n output).
  - by apply encoder_returns_when.
Qed.

Lemma encoder_returns_iff_witness :
  (exists output, streamToNoteArray [Note (2 # 5) (2 # 5) 60] = Ok output) <->
  (forall n, n ∈ [Row 2 2 60] ->
             0 <= pos n < total_length [Note (2 # 5) (2 # 5) 60] ->
             pos n + dur n <= total_length [Note (2 # 5) (2 # 5) 60]).
Proof.
  assert (Hw : well_timed [Note (2 # 5) (2 # 5) 60]) by timed.
  exact (encoder_returns_iff [Note (2 # 5) (2 # 5) 60] [Row 2 2 60] Hw eq_refl).
Defined.

End EncodedArray.

(** ** The tie-break at one tick *)

Section TieBreak.

Lemma row_le_total (a b : row) : row_le a b = false -> row_le b a = true.
Proof.
  unfold row_le. intros H. apply orb_false_iff in H as [H1 H2].
  apply Z.ltb_ge in H1. apply orb_true_iff.
  destruct (Z.eq_dec (pos a) (pos b)) as [He|Hne].
  - right. rewrite He, Z.eqb_refl in *. simpl in *.
    apply Z.leb_gt in H2. apply Z.leb_le. lia.
  - left. apply Z.ltb_lt. lia.
Qed.

Lemma sorted_before_trans (a b c : row) :
  sorted_before a b -> sorted_before b c -> sorted_before a c.
Proof.
  unfold sorted_before, row_le. intros H1 H2.
  apply orb_true_iff in H1. apply orb_true_iff in H2. apply orb_true_iff.
  rewrite !andb_true_iff, !Z.ltb_lt, !Z.eqb_eq, !Z.leb_le in *. lia.
Qed.

Lemma insert_row_elem_of (r x : row) (l : list row) :
  x ∈ insert_row r l <-> x = r \/ x ∈ l.
Proof.
  split; [apply insert_row_elem|].
  induction l as [|y l IH]; simpl.
  - intros [->|H]; [apply list_elem_of_here | by apply elem_of_nil in H].
  - destruct (row_le r y).
    + intros [->|H]; [apply list_elem_of_here | by apply list_elem_of_further].
    + intros [->|H].
      * apply list_elem_of_further. apply IH. by left.
      * apply elem_of_cons in H as [->|H]; [apply list_elem_of_here|].
        apply list_elem_of_further. apply IH. by right.
Qed.

Lemma insert_row_sorted (r : row) (l : list row) :
  StronglySorted sorted_before l -> StronglySorted sorted_before (insert_row r l).
Proof.
  induction 1 as [|y l Hs IH Hy]; simpl.
  - constructor; constructor.
  - destruct (row_le r y) eqn:Hle.
    + constructor; [by constructor|]. constructor; [done|].
      eapply Forall_impl; [exact Hy|]. intros z Hz.
      by apply (sorted_before_trans r y z).
    + constructor; [exact IH|]. apply Forall_forall. intros z Hz.
      apply insert_row_elem_of in Hz as [->|Hz].
      * by apply row_le_total.
      * rewrite Forall_forall in Hy. by apply Hy.
Qed.

Lemma sort_values_sorted (l : list row) :
  StronglySorted sorted_before (sort_values l).
Proof.
  induction l as [|r l IH]; simpl; [constructor | by apply insert_row_sorted].
Qed.

Lemma sort_values_elem_of (x : row) (l : list row) :
  x ∈ sort_values l <-> x ∈ l.
Proof.
  split; [apply sort_values_elem|].
  induction l as [|r l IH]; simpl; [done|].
  intros H. apply insert_row_elem_of.
  apply elem_of_cons in H as [->|H]; [by left | right; by apply IH].
Qed.

Lemma existsb_pos (p : Z) (seen : list Z) :
  existsb (Z.eqb p) seen = true <-> p ∈ seen.
Proof.
  rewrite existsb_exists. split.
  - intros (x & Hx & He). apply Z.eqb_eq in He as ->. by apply list_elem_of_In.
  - intros H. exists p. split; [by apply list_elem_of_In | apply Z.eqb_refl].
Qed.

(** The row kept for a tick comes before every other row of that tick. *)
Lemma drop_duplicates_from_first (l : list row) (seen : list Z) (n x : row) :
  StronglySorted sorted_before l ->
  n ∈ drop_duplicates_from seen l -> x ∈ l -> pos x = pos n ->
  sorted_before n x.
Proof.
  intros Hs. revert seen. induction Hs as [|r l Hs IH Hr]; intros seen; simpl.
  - intros H. by apply elem_of_nil in H.
  - destruct (existsb (Z.eqb (pos r)) seen) eqn:Hseen.
    + intros Hn Hx Hp. apply elem_of_cons in Hx as [->|Hx]; [|by apply (IH seen)].
      apply drop_duplicates_from_elem in Hn as [_ Hn]. congruence.
    + intros Hn Hx Hp. apply elem_of_cons in Hn as [->|Hn].
      * apply elem_of_cons in Hx as [->|Hx].
        -- unfold sorted_before, row_le.
           by rewrite Z.eqb_refl, Z.leb_refl, orb_true_r.
        -- rewrite Forall_forall in Hr. by apply Hr.
      * apply elem_of_cons in Hx as [->|Hx]; [|by apply (IH (pos r :: seen))].
        apply drop_duplicates_from_elem in Hn as [_ Hn].
        simpl in Hn. rewrite <- Hp, Z.eqb_refl in Hn. discriminate Hn.
Qed.

(** Every tick that holds a row keeps one. *)
Lemma drop_duplicates_from_keeps (l : list row) (seen : list Z) (x : row) :
  x ∈ l -> existsb (Z.eqb (pos x)) seen = false ->
  exists n, n ∈ drop_duplicates_from seen l /\ pos n = pos x.
Proof.
  revert seen. induction l as [|r l IH]; intros seen Hx Hseen; simpl.
  - by apply elem_of_nil in Hx.
  - destruct (existsb (Z.eqb (pos r)) seen) eqn:Hr.
    + apply elem_of_cons in Hx as [->|Hx]; [congruence|].
      by apply IH.
    + destruct (Z.eq_dec (pos r) (pos x)) as [He|Hne].
      * exists r. split; [apply list_elem_of_here | done].
      * apply elem_of_cons in Hx as [->|Hx]; [done|].
        destruct (IH (pos r :: seen) Hx) as (n & Hn & Hp).
        -- simpl. rewrite Hseen, orb_false_r. apply Z.eqb_neq. congruence.
        -- exists n. split; [by apply list_elem_of_further | done].
Qed.

(** X4: for every note or chord of the stream the frame retains exactly
    one row at its tick; that row comes from a note or chord of the stream
    and no note or chord at that tick has a higher pitch. *)
Theorem tie_break_highest_pitch (stream : list element) (df rows : list row)
        (r : row) :
  note_frame stream = Ok df -> extract stream = Ok rows -> r ∈ rows ->
  exists n, select df (pos r) = [n] /\ n ∈ rows /\ pitch r <= pitch n.
Proof.
  intros Hf He Hr.
  assert (Hone : forall n, n ∈ df -> select df (pos n) = [n])
    by (intros n; by apply (note_frame_select stream)).
  apply note_frame_inv in Hf as (rows' & He' & ->).
  rewrite He in He'. injection He' as <-.
  destruct (drop_duplicates_from_keeps (sort_values rows) [] r) as (n & Hn & Hp);
    [by apply sort_values_elem_of | reflexivity |].
  exists n. split; [|split].
  - rewrite <- Hp. by apply Hone.
  - apply drop_duplicates_from_elem in Hn as [Hn _]. by apply sort_values_elem_of.
  - pose proof (drop_duplicates_from_first (sort_values rows) [] n r
                  (sort_values_sorted rows) Hn) as Hle.
    unfold sorted_before, row_le in Hle.
    rewrite Hp, Z.ltb_irrefl, Z.eqb_refl in Hle. simpl in Hle.
    apply Z.leb_le. apply Hle; [by apply sort_values_elem_of | done].
Qed.

Lemma tie_break_highest_pitch_witness :
  exists n, select [Row 0 4 67; Row 4 4 62] (pos (Row 0 4 60)) = [n] /\
            n ∈ [Row 0 4 60; Row 0 4 67; Row 4 4 62] /\
            pitch (Row 0 4 60) <= pitch n.
Proof.
  apply (tie_break_highest_pitch [Note 0 1 60; Note 0 1 67; Note 1 1 62]
           [Row 0 4 67; Row 4 4 62] [Row 0 4 60; Row 0 4 67; Row 4 4 62]
           (Row 0 4 60) eq_refl eq_refl).
  apply list_elem_of_here.
Defined.

End TieBreak.

(** ** Rows and the elements they come from *)

Section RowsOfElements.

Lemma extract_elem (stream : list element) (rows : list row) (r : row) :
  extract stream = Ok rows -> r ∈ rows ->
  exists e, e ∈ stream /\
    pos r = np_round (offset e / grid) /\
    dur r = np_round (quarterLength e / grid) /\
    match e with
    | Note _ _ m => pitch r = m
    | Chord _ _ ps => last ps = Some (pitch r)
    | Other _ _ => False
    end.
Proof.
  revert rows. induction stream as [|e stream IH]; intros rows; simpl.
  - intros [= <-] H. by apply elem_of_nil in H.
  - destruct e as [o d m|o d ps|o d].
    + intros H Hr. apply bind_Ok in H as (rs & H1 & [= <-]).
      apply elem_of_cons in Hr as [->|Hr].
      * exists (Note o d m). split; [apply list_elem_of_here | done].
      * destruct (IH _ H1 Hr) as (e & He & Hrest).
        exists e. split; [by apply list_elem_of_further | done].
    + intros H Hr. apply bind_Ok in H as (m & Hm & H).
      apply bind_Ok in H as (rs & H1 & [= <-]).
      apply elem_of_cons in Hr as [->|Hr].
      * exists (Chord o d ps). split; [apply list_elem_of_here|].
        unfold py_last in Hm. destruct (last ps); [|discriminate].
        by injection Hm as ->.
      * destruct (IH _ H1 Hr) as (e & He & Hrest).
        exists e. split; [by apply list_elem_of_further | done].
    + intros H Hr. destruct (IH _ H Hr) as (e & He & Hrest).
      exists e. split; [by apply list_elem_of_further | done].
Qed.

Lemma note_frame_elem (stream : list element) (df : list row) (n : row) :
  note_frame stream = Ok df -> n ∈ df ->
  exists rows, extract stream = Ok rows /\ n ∈ rows.
Proof.
  intros Hf Hn. apply note_frame_inv in Hf as (rows & He & ->).
  exists rows. split; [done|].
  apply drop_duplicates_from_elem in Hn as [Hn _]. by apply sort_values_elem.
Qed.

Lemma np_round_add (p q : Q) :
  np_round p + np_round q <= np_round (p + q) + 1.
Proof.
  destruct (np_round_spec p) as [[Hp1 _] _].
  destruct (np_round_spec q) as [[Hq1 _] _].
  destruct (np_round_spec (p + q)) as [[_ Hs2] _].
  destruct p as [n1 d1], q as [n2 d2]. simpl in *.
  set (r1 := np_round (n1 # d1)) in *. set (r2 := np_round (n2 # d2)) in *.
  set (r := np_round ((n1 # d1) + (n2 # d2))) in *.
  rewrite Pos2Z.inj_mul in Hs2.
  assert (H1 : (2 * r1 - 1) * (Z.pos d1 * Z.pos d2) <= 2 * n1 * Z.pos d2) by nia.
  assert (H2 : (2 * r2 - 1) * (Z.pos d1 * Z.pos d2) <= 2 * n2 * Z.pos d1) by nia.
  assert (H3 : 0 < Z.pos d1 * Z.pos d2) by lia.
  nia.
Qed.

(** X8: with non-negative durations every row starts inside the array and
    its NOTE_OFF index exceeds the last index by at most one: the two
    roundings of line 45-46 and the rounding of line 41 differ by one tick at
    most. *)
Theorem note_off_overshoot (stream : list element) (rows : list row) (r : row) :
  well_timed stream -> extract stream = Ok rows -> r ∈ rows ->
  pos r <= total_length stream /\ pos r + dur r <= total_length stream + 1.
Proof.
  intros Hw He Hr. destruct (extract_elem _ _ _ He Hr) as (e & Hin & -> & -> & _).
  unfold well_timed in Hw. rewrite Forall_forall in Hw. specialize (Hw e Hin).
  pose proof (highestTime_upper _ _ Hin) as Hup.
  unfold total_length. split.
  - apply ticks_mono. eapply Qle_trans; [|exact Hup].
    rewrite <- (Qplus_0_r (offset e)) at 1. by apply Qplus_le_r.
  - pose proof (np_round_add (offset e / grid) (quarterLength e / grid)) as Ha.
    assert (Hm : np_round (offset e / grid + quarterLength e / grid) <=
                 np_round (highestTime stream / grid)).
    { apply np_round_mono. unfold Qdiv. rewrite <- Qmult_plus_distr_l.
      apply Qmult_le_compat_r; [exact Hup | by vm_compute]. }
    lia.
Qed.

Lemma note_off_overshoot_witness :
  pos (Row 2 2 60) <= total_length [Note (2 # 5) (2 # 5) 60] /\
  pos (Row 2 2 60) + dur (Row 2 2 60) <= total_length [Note (2 # 5) (2 # 5) 60] + 1.
Proof.
  assert (Hw : well_timed [Note (2 # 5) (2 # 5) 60]) by timed.
  apply (note_off_overshoot [Note (2 # 5) (2 # 5) 60] [Row 2 2 60] _ Hw eq_refl).
  apply list_elem_of_here.
Defined.

(** X6: on a stream on the sixteenth-note grid with non-negative durations
    for which the frame of retained rows is built (lines 40-55 do not raise),
    the encoder returns an array: no NOTE_OFF falls outside it. *)
Theorem grid_aligned_encodes (stream : list element) (df : list row) :
  well_timed stream -> grid_aligned stream -> note_frame stream = Ok df ->
  exists output, streamToNoteArray stream = Ok output.
Proof.
  intros Hw Hg Hf. apply (encoder_returns_when stream df Hw Hf).
  intros n Hn _.
  destruct (note_frame_elem _ _ _ Hf Hn) as (rows & He & Hr).
  destruct (extract_elem _ _ _ He Hr) as (e & Hin & -> & -> & _).
  unfold grid_aligned in Hg. rewrite Forall_forall in Hg.
  destruct (Hg e Hin) as [[ko Hko] [kd Hkd]].
  rewrite (ticks_on_grid _ _ Hko), (ticks_on_grid _ _ Hkd).
  assert (Hsum : (offset e + quarterLength e == inject_Z (ko + kd) * grid)%Q).
  { rewrite Hko, Hkd, inject_Z_plus. ring. }
  rewrite <- (ticks_on_grid _ _ Hsum). unfold total_length.
  apply ticks_mono. by apply highestTime_upper.
Qed.

Lemma grid_aligned_encodes_witness :
  exists output, streamToNoteArray three_quarters = Ok output.
Proof.
  assert (Hw : well_timed three_quarters) by timed.
  apply (grid_aligned_encodes three_quarters
           [Row 0 4 60; Row 4 4 62; Row 8 4 64] Hw); [|reflexivity].
  unfold grid_aligned, three_quarters.
  repeat (constructor;
          [split; [first [by exists 0 | by exists 4 | by exists 8]
                  | by exists 4]|]).
  constructor.
Defined.



End RowsOfElements.

(** ** The values of the encoded array *)

Section EncodedValues.

Variable P : Z -> Prop.

Lemma np_setitem_values (a a' : list Z) (k v : Z) :
  Forall P a -> P (int16 v) -> np_setitem a k v = Ok a' -> Forall P a'.
Proof.
  unfold np_setitem. intros Ha Hv. destruct (_ || _); [discriminate|].
  intros [= <-]. by apply Forall_insert.
Qed.

Lemma fill_from_values (df : list row) (count : nat) (i : Z)
      (output output' : list Z) :
  P (int16 MELODY_NOTE_OFF) -> (forall n, n ∈ df -> P (int16 (pitch n))) ->
  Forall P output -> fill_from df count i output = Ok output' ->
  Forall P output'.
Proof.
  intros Hoff Hpitch. revert i output.
  induction count as [|count IH]; intros i output Ha; simpl.
  - by intros [= <-].
  - intros H. apply bind_Ok in H as (o1 & H1 & H2).
    apply (IH (i + 1) o1); [|exact H2].
    unfold fill_tick in H1.
    destruct (select df i) as [|n rest] eqn:Hs; [by injection H1 as <-|].
    assert (Hn : n ∈ df).
    { assert (Hn : n ∈ select df i) by (rewrite Hs; apply list_elem_of_here).
      by apply list_elem_of_filter in Hn as [_ Hn]. }
    apply bind_Ok in H1 as (o2 & H3 & H4).
    apply (np_setitem_values o2 o1 (i + dur n) MELODY_NOTE_OFF); [|done|done].
    apply (np_setitem_values output o2 i (pitch n)); [done | by apply Hpitch | done].
Qed.

End EncodedValues.

(** X5: when the pitches are MIDI numbers, every entry of an encoded array is
    a melody event: a pitch in 0..127, NOTE_OFF (128) or NO_EVENT (129). *)
Theorem encoder_values (stream : list element) (output : list Z) :
  midi_pitches stream -> streamToNoteArray stream = Ok output ->
  Forall (fun v => 0 <= v < MELODY_SIZE) output.
Proof.
  intros Hm H. apply encoder_inv in H as (df & Hf & H).
  apply (fill_from_values (fun v => 0 <= v < MELODY_SIZE) df
           (Z.to_nat (total_length stream)) 0
           (replicate (Z.to_nat (total_length stream + 1)) (int16 MELODY_NO_EVENT))
           output); [by vm_compute | | | exact H].
  - intros n Hn. destruct (note_frame_elem _ _ _ Hf Hn) as (rows & He & Hr).
    destruct (extract_elem _ _ _ He Hr) as (e & Hin & _ & _ & Hp).
    unfold midi_pitches in Hm. rewrite Forall_forall in Hm. specialize (Hm e Hin).
    assert (Hrange : 0 <= pitch n <= 127).
    { destruct e as [o d m|o d ps|o d]; [by subst | | done].
      rewrite Forall_forall in Hm. apply Hm. by apply last_Some_elem_of. }
    unfold int16, MELODY_SIZE. rewrite Z.mod_small by lia. lia.
  - apply Forall_forall. intros v Hv. apply elem_of_replicate in Hv as [-> _].
    by vm_compute.
Qed.

Lemma encoder_values_witness :
  Forall (fun v => 0 <= v < MELODY_SIZE)
         [128; 129; 129; 129; 62; 129; 129; 129; 128].
Proof.
  apply (encoder_values short_then_quarter); [|reflexivity].
  unfold midi_pitches, short_then_quarter. repeat (constructor; [lia|]). constructor.
Defined.

(** ** The decoder's frame, as a whole *)

Section DecodedFrame.

Lemma durations_length (col : list Z) : length (durations col) = length col.
Proof.
  unfold durations. rewrite !length_map.
  induction col as [|a [|b t] IH]; simpl in *; [done | done | by rewrite IH].
Qed.

Lemma kept_codes (note_array : list Z) (k : Z) :
  map code (filter (fun r => code r <> MELODY_NO_EVENT) (frame_from k note_array)) =
  filter (fun c => c <> MELODY_NO_EVENT) note_array.
Proof.
  revert k. induction note_array as [|c l IH]; intros k; simpl; [done|].
  rewrite !filter_cons. simpl.
  destruct (decide (c <> MELODY_NO_EVENT)); simpl; by rewrite IH.
Qed.

Lemma zip_fst {A B : Type} (l : list A) (k : list B) :
  length l = length k -> map fst (zip l k) = l.
Proof.
  revert k. induction l as [|a l IH]; intros [|b k]; simpl; try done.
  intros [= H]. by rewrite IH.
Qed.

Lemma zip_snd {A B : Type} (l : list A) (k : list B) :
  length l = length k -> map snd (zip l k) = k.
Proof.
  revert k. induction l as [|a l IH]; intros [|b k]; simpl; try done.
  intros [= H]. by rewrite IH.
Qed.

Lemma frame_columns (note_array : list Z) :
  map fst (noteArrayToDataFrame note_array) =
    filter (fun c => c <> MELODY_NO_EVENT) note_array /\
  map snd (noteArrayToDataFrame note_array) =
    durations (originalIndex note_array).
Proof.
  unfold noteArrayToDataFrame. rewrite kept_duration.
  assert (Hlen : length (map code (events note_array)) =
                 length (durations (originalIndex note_array))).
  { rewrite durations_length. unfold originalIndex. by rewrite !length_map. }
  split; [rewrite zip_fst by done; apply kept_codes | by apply zip_snd].
Qed.

(** X9: the codes of the decoder's rows are the entries of the array other
    than NO_EVENT, in their order; so no row holds NO_EVENT, and the frame is
    empty exactly when the array holds nothing but NO_EVENT. *)
Theorem decoder_codes (note_array : list Z) :
  map fst (noteArrayToDataFrame note_array) =
    filter (fun c => c <> MELODY_NO_EVENT) note_array /\
  (noteArrayToDataFrame note_array = [] <->
   Forall (fun c => c = MELODY_NO_EVENT) note_array).
Proof.
  destruct (frame_columns note_array) as [Hc _]. split; [exact Hc|].
  split.
  - intros H. rewrite H in Hc. simpl in Hc. symmetry in Hc.
    apply Forall_forall. intros c Hin.
    destruct (decide (c = MELODY_NO_EVENT)) as [|Hne]; [done|].
    by destruct (filter_nil_not_elem_of _ _ c Hc Hne).
  - intros H. destruct (noteArrayToDataFrame note_array) as [|[c d] rows]; [done|].
    simpl in Hc. rewrite Forall_forall in H.
    assert (Hin : c ∈ filter (fun c => c <> MELODY_NO_EVENT) note_array)
      by (rewrite <- Hc; apply list_elem_of_here).
    apply list_elem_of_filter in Hin as [Hne Hin]. by destruct (Hne (H c Hin)).
Qed.

Lemma Qsum_durations (a l : Z) (t : list Z) :
  last (a :: t) = Some l ->
  (Qsum (durations (a :: t)) == inject_Z (l - a + 1) * (1 # 4))%Q.
Proof.
  revert a. induction t as [|b t IH]; intros a.
  - intros [= ->]. replace (l - l + 1) with 1 by lia. reflexivity.
  - rewrite last_cons_cons. intros Hl. rewrite durations_cons.
    simpl. rewrite (IH b Hl), backward_difference.
    rewrite <- Qmult_plus_distr_l, <- inject_Z_plus.
    by replace (b - a + (l - b + 1)) with (l - a + 1) by lia.
Qed.

(** X10: the durations of the rows add up to the span from the first to the
    last kept index, plus one grid unit for the last row: NO_EVENT entries
    before the first event and after the last one are not counted. *)
Theorem decoder_total_duration (note_array : list Z) (first last_index : Z) :
  head (originalIndex note_array) = Some first ->
  last (originalIndex note_array) = Some last_index ->
  (Qsum (map snd (noteArrayToDataFrame note_array)) ==
   inject_Z (last_index - first + 1) * (1 # 4))%Q.
Proof.
  destruct (frame_columns note_array) as [_ ->].
  destruct (originalIndex note_array) as [|a t]; [discriminate|].
  intros [= ->] Hl. by apply Qsum_durations.
Qed.

Lemma decoder_total_duration_witness :
  Qeq (Qsum (map snd (noteArrayToDataFrame [129; 60; 129; 129; 128; 129; 129])))
      (inject_Z (4 - 1 + 1) * (1 # 4)).
Proof.
  exact (decoder_total_duration [129; 60; 129; 129; 128; 129; 129] 1 4
           eq_refl eq_refl).
Defined.

End DecodedFrame.

(** ** The decoded stream *)

Section DecodedStream.

Lemma Qsum_app (l k : list Q) : (Qsum (l ++ k) == Qsum l + Qsum k)%Q.
Proof.
  induction l as [|x l IH]; simpl; [by rewrite Qplus_0_l|].
  rewrite IH. ring.
Qed.

Lemma melody_highestTime_snoc (s : list placed) (e : placed) :
  (melody_highestTime (s ++ [e]) ==
   Qmax (melody_highestTime s) (placed_at e + placed_length e))%Q.
Proof.
  induction s as [|x s IH]; simpl.
  - apply Q.max_comm.
  - rewrite IH. apply Q.max_assoc.
Qed.

(** The stream built from a list of rows. *)
Lemma build_snoc (rows : list (Z * Q)) (r : Z * Q) (s : list placed) :
  fold_left (fun melody_stream row =>
               append melody_stream (new_note (fst row)) (snd row))
            (rows ++ [r]) s =
  append (fold_left (fun melody_stream row =>
                       append melody_stream (new_note (fst row)) (snd row))
                    rows s)
         (new_note (fst r)) (snd r).
Proof. by rewrite fold_left_app. Qed.

Lemma build_spec (rows : list (Z * Q)) :
  Forall (fun r => (0 <= snd r)%Q) rows ->
  let s := fold_left (fun melody_stream row =>
                        append melody_stream (new_note (fst row)) (snd row))
                     rows [] in
  length s = length rows /\
  (melody_highestTime s == Qsum (map snd rows))%Q /\
  forall i e, s !! i = Some e ->
    exists r, rows !! i = Some r /\
      placed_sound e = new_note (fst r) /\ placed_length e = snd r /\
      (placed_at e == Qsum (map snd (take i rows)))%Q.
Proof.
  induction rows as [|r rows IH] using rev_ind; intros Hpos.
  - simpl. split; [done|]. split; [reflexivity | done].
  - apply Forall_app in Hpos as [Hrows Hr]. apply Forall_cons in Hr as [Hr _].
    destruct (IH Hrows) as (Hlen & Hhigh & Hat). clear IH.
    simpl. rewrite build_snoc.
    set (s := fold_left _ rows []) in *. unfold append.
    split; [rewrite !length_app, Hlen; reflexivity|]. split.
    + rewrite melody_highestTime_snoc. simpl.
      rewrite map_app, Qsum_app. simpl. rewrite Qplus_0_r, Hhigh.
      apply Q.max_r. rewrite <- (Qplus_0_r (Qsum (map snd rows))) at 1.
      by apply Qplus_le_r.
    + intros i e Hi. destruct (decide (i < length s)%nat) as [Hlt|Hge].
      * rewrite lookup_app_l in Hi by done.
        destruct (Hat i e Hi) as (r' & Hr' & Hrest). exists r'.
        rewrite lookup_app_l by lia. split; [done|].
        rewrite take_app_le by lia. exact Hrest.
      * rewrite lookup_app_r in Hi by lia.
        destruct (i - length s)%nat as [|k] eqn:Hk; [|done].
        injection Hi as <-. assert (i = length rows) as -> by lia.
        exists r. rewrite lookup_app_r, Nat.sub_diag by lia.
        split; [done|]. split; [done|]. split; [done|]. simpl.
        rewrite take_app_le, take_ge by lia. exact Hhigh.
Qed.

Lemma Qsum_take_durations (a k : Z) (t : list Z) (i : nat) :
  (a :: t) !! i = Some k ->
  (Qsum (take i (durations (a :: t))) == inject_Z (k - a) * (1 # 4))%Q.
Proof.
  revert a i. induction t as [|b t IH]; intros a [|i].
  - simpl. intros [= ->]. by rewrite Z.sub_diag.
  - done.
  - simpl. intros [= ->]. by rewrite Z.sub_diag.
  - intros Hk. rewrite durations_cons, firstn_cons.
    change (Qsum (?x :: ?l)) with (x + Qsum l)%Q.
    rewrite (IH b i Hk), backward_difference.
    rewrite <- Qmult_plus_distr_l, <- inject_Z_plus.
    by replace (b - a + (k - b)) with (k - a) by lia.
Qed.

Lemma frame_durations_nonneg (note_array : list Z) :
  Forall (fun r => (0 <= snd r)%Q) (noteArrayToDataFrame note_array).
Proof.
  apply Forall_forall. intros [c d] Hin. simpl.
  assert (Hd : d ∈ map snd (noteArrayToDataFrame note_array)).
  { apply list_elem_of_In, in_map_iff. exists (c, d).
    split; [done | by apply list_elem_of_In]. }
  destruct (frame_columns note_array) as [_ Hs]. rewrite Hs in Hd.
  pose proof (durations_whole_ticks _ (originalIndex_sorted note_array)) as Hall.
  rewrite Forall_forall in Hall. destruct (Hall d Hd) as (n & Hn & ->).
  unfold Qle. simpl. lia.
Qed.

(** X11: the decoded stream has one element per entry of the array other
    than NO_EVENT: a rest for NOTE_OFF, the note of MIDI number [c] for a code
    [c] from 12 on, and for a code below 12 the note of that pitch class in
    octave 4, MIDI [60 + c mod 12] (the NO_EVENT test of line 89 never
    holds).  The element for the entry at index [k]
    sits at offset [(k - first) * 0.25], where [first] is the index of the
    first such entry, and its length is the row's duration. *)
Theorem decoded_stream_elements (note_array : list Z) (i : nat) (first k : Z) :
  head (originalIndex note_array) = Some first ->
  originalIndex note_array !! i = Some k ->
  exists e c d,
    noteArrayToStream note_array !! i = Some e /\
    noteArrayToDataFrame note_array !! i = Some (c, d) /\
    note_array !! Z.to_nat k = Some c /\
    placed_sound e =
      (if c =? MELODY_NOTE_OFF then Rest
       else if c <? 12 then NoteOf (60 + c mod 12) else NoteOf c) /\
    placed_length e = d /\
    (placed_at e == inject_Z (k - first) * (1 # 4))%Q.
Proof.
  intros Hfirst Hk.
  destruct (build_spec _ (frame_durations_nonneg note_array)) as (Hlen & _ & Hat).
  fold (noteArrayToStream note_array) in Hlen, Hat.
  destruct (frame_columns note_array) as [Hcodes Hdur].
  assert (Hi : (i < length (noteArrayToStream note_array))%nat).
  { rewrite Hlen, <- (length_map snd), Hdur, durations_length.
    by apply lookup_lt_Some in Hk. }
  apply lookup_lt_is_Some_2 in Hi as [e He].
  destruct (Hat i e He) as ([c d] & Hr & Hs & Hl & Ho). simpl in *.
  exists e, c, d. split; [done|]. split; [done|].
  assert (Hc : c ∈ filter (fun c => c <> MELODY_NO_EVENT) note_array).
  { rewrite <- Hcodes. apply list_elem_of_In, in_map_iff. exists (c, d).
    split; [done|]. by apply list_elem_of_In, (list_elem_of_lookup_2 _ i). }
  apply list_elem_of_filter in Hc as [Hne _].
  split; [|split; [|split; [done|]]].
  - assert (Hk' := Hk). unfold originalIndex in Hk'. rewrite lookup_map in Hk'.
    destruct (events note_array !! i) as [r|] eqn:Hev; [|discriminate].
    injection Hk' as <-.
    unfold noteArrayToDataFrame in Hr.
    assert (Hcr : map code (events note_array) !! i = Some (code r))
      by by rewrite lookup_map, Hev.
    assert (Hcc : c = code r).
    { apply (f_equal (option_map fst)) in Hr. rewrite <- lookup_map in Hr.
      rewrite zip_fst in Hr; [simpl in Hr; congruence|].
      rewrite kept_duration, durations_length. unfold originalIndex.
      by rewrite !length_map. }
    subst c. apply list_elem_of_lookup_2, list_elem_of_filter in Hev as [_ Hev].
    apply frame_from_elem in Hev as (_ & _ & Hev). by rewrite Z.sub_0_r in Hev.
  - rewrite Hs. unfold new_note, note_ps.
    destruct (Z.eqb_spec c MELODY_NO_EVENT) as [|_]; [done|].
    destruct (c =? MELODY_NOTE_OFF); [reflexivity|]. by destruct (c <? 12).
  - rewrite Ho, <- firstn_map, Hdur.
    destruct (originalIndex note_array) as [|a t]; [discriminate|].
    injection Hfirst as ->. by apply Qsum_take_durations.
Qed.

Lemma decoded_stream_elements_witness :
  exists e c d,
    noteArrayToStream [129; 60; 129; 129; 128; 129; 129] !! 1%nat = Some e /\
    noteArrayToDataFrame [129; 60; 129; 129; 128; 129; 129] !! 1%nat = Some (c, d) /\
    [129; 60; 129; 129; 128; 129; 129] !! Z.to_nat 4 = Some c /\
    placed_sound e =
      (if c =? MELODY_NOTE_OFF then Rest
       else if c <? 12 then NoteOf (60 + c mod 12) else NoteOf c) /\
    placed_length e = d /\
    Qeq (placed_at e) (inject_Z (4 - 1) * (1 # 4)).
Proof.
  exact (decoded_stream_elements [129; 60; 129; 129; 128; 129; 129] 1 1 4
           eq_refl eq_refl).
Defined.

(** X12: the decoded stream is as long as the sum of its rows' durations:
    from the first kept entry to the last, plus one grid unit. *)
Theorem decoded_stream_highestTime (note_array : list Z) (first last_index : Z) :
  head (originalIndex note_array) = Some first ->
  last (originalIndex note_array) = Some last_index ->
  (melody_highestTime (noteArrayToStream note_array) ==
   inject_Z (last_index - first + 1) * (1 # 4))%Q.
Proof.
  intros Hf Hl.
  destruct (build_spec _ (frame_durations_nonneg note_array)) as (_ & Hhigh & _).
  fold (noteArrayToStream note_array) in Hhigh. rewrite Hhigh.
  destruct (frame_columns note_array) as [_ ->].
  destruct (originalIndex note_array) as [|a t]; [discriminate|].
  injection Hf as ->. by apply Qsum_durations.
Qed.

Lemma decoded_stream_highestTime_witness :
  Qeq (melody_highestTime (noteArrayToStream [129; 60; 129; 129; 128; 129; 129]))
      (inject_Z (4 - 1 + 1) * (1 # 4)).
Proof.
  exact (decoded_stream_highestTime [129; 60; 129; 129; 128; 129; 129] 1 4
           eq_refl eq_refl).
Defined.

End DecodedStream.

(** ** The compressor on whole configurations *)

Section CompressConfig.

Local Open Scope string_scope.

Lemma whitelist_keys_distinct (class_name : json) (keys : list string) :
  documented_keys class_name = Some keys -> NoDup keys.
Proof.
  destruct class_name as [| | |s| |]; try discriminate.
  unfold documented_keys, whitelist. cbn [keys_of].
  repeat match goal with
         | |- context [String.eqb s ?k] =>
             destruct (String.eqb s k);
             [intros [= <-];
              repeat (apply NoDup_cons_2;
                      [repeat (apply not_elem_of_cons; split; [discriminate|]);
                       apply not_elem_of_nil|]);
              apply NoDup_nil_2|]
         end.
  discriminate.
Qed.

(** X13: the export is all or nothing: it returns (and writes the file)
    exactly when every layer of the model's configuration can be compressed;
    one layer that cannot aborts the whole export. *)
Theorem export_all_or_nothing (model : keras_model) (config : json)
        (items : list json) :
  py_getitem (to_json model) "config" = Ok config ->
  py_getitem config "layers" = Ok (JArr items) ->
  (exists e, get_model_for_export model = Ok e) <->
  Forall (fun l => exists r, compress_layer l = Ok r) items.
Proof.
  intros Hc Hl. rewrite <- compress_layers_returns.
  unfold get_model_for_export, compressConfig. rewrite Hc. simpl.
  rewrite Hl. simpl. split.
  - intros [e H]. apply bind_Ok in H as (cc & H & _).
    apply bind_Ok in H as (ls & H & _). eauto.
  - intros [res ->]. simpl. eauto.
Qed.

Lemma export_all_or_nothing_witness :
  (exists e, get_model_for_export small_model = Ok e) <->
  Forall (fun l => exists r, compress_layer l = Ok r)
    [JObj [("class_name", JStr "Dense");
           ("config",
            JObj [("name", JStr "dense");
                  ("trainable", JBool true);
                  ("units", JNum 2);
                  ("activation", JStr "linear");
                  ("use_bias", JBool true)])];
     JObj [("class_name", JStr "Activation");
           ("config",
            JObj [("name", JStr "activation");
                  ("activation", JStr "softmax")])]].
Proof.
  exact (export_all_or_nothing small_model _ _ eq_refl eq_refl).
Defined.

Lemma pick_missing (bindings : list (string * json)) (keys : list string)
      (k : string) :
  k ∈ keys -> assoc k bindings = None ->
  pick (JObj bindings) keys = Err KeyError.
Proof.
  induction keys as [|k' keys IH]; intros Hk Hnone; [by apply elem_of_nil in Hk|].
  simpl. destruct (assoc k' bindings) as [v|] eqn:Hv; [|reflexivity].
  simpl. apply elem_of_cons in Hk as [->|Hk]; [congruence|].
  by rewrite (IH Hk Hnone).
Qed.

(** X14: a layer description without the key "config" raises KeyError
    whatever its kind, and so does a layer of a recognized kind whose config
    lacks one of the keys kept for that kind. *)
Theorem compress_layer_key_errors (bindings : list (string * json)) :
  (assoc "config" bindings = None ->
   compress_layer (JObj bindings) = Err KeyError) /\
  (forall cfg class_name keys k,
     assoc "config" bindings = Some (JObj cfg) ->
     assoc "class_name" bindings = Some class_name ->
     documented_keys class_name = Some keys ->
     k ∈ keys -> assoc k cfg = None ->
     compress_layer (JObj bindings) = Err KeyError).
Proof.
  split.
  - intros H. unfold compress_layer. simpl. by rewrite H.
  - intros cfg class_name keys k Hcfg Hcn Hkeys Hk Hnone.
    unfold compress_layer. simpl. rewrite Hcfg, Hcn. simpl.
    rewrite layer_config_dispatch, Hkeys. simpl.
    by rewrite (pick_missing cfg keys k Hk Hnone).
Qed.

Lemma compress_layer_class_name (layer res : json) :
  compress_layer layer = Ok res -> same_class_name layer res.
Proof.
  unfold compress_layer. intros H.
  apply bind_Ok in H as (cfg & _ & H).
  apply bind_Ok in H as (cn & Hcn & H).
  apply bind_Ok in H as (lc & _ & H).
  exists cn. split; [done|]. by destruct lc; injection H as <-.
Qed.

(** X15: a compressed configuration lists the layers of the input in their
    order, one entry per layer, each under the class name of its layer. *)
Theorem compressConfig_keeps_layers (data res : json) :
  compressConfig data = Ok res ->
  exists config layers items entries,
    py_getitem data "config" = Ok config /\
    py_getitem config "layers" = Ok layers /\
    py_iter layers = Ok items /\
    res = JObj [("config", JObj [("layers", JArr entries)])] /\
    Forall2 same_class_name items entries.
Proof.
  unfold compressConfig. intros H.
  apply bind_Ok in H as (config & Hc & H).
  apply bind_Ok in H as (layers & Hl & H).
  apply bind_Ok in H as (items & Hi & H).
  apply bind_Ok in H as (entries & He & [= <-]).
  exists config, layers, items, entries. repeat (split; [done|]).
  apply compress_layers_Forall2 in He.
  eapply Forall2_impl; [exact He|]. apply compress_layer_class_name.
Qed.

Lemma compressConfig_keeps_layers_witness :
  exists config layers items entries,
    py_getitem dense_softmax "config" = Ok config /\
    py_getitem config "layers" = Ok layers /\
    py_iter layers = Ok items /\
    JObj [("config",
           JObj [("layers",
                  JArr [JObj [("class_name", JStr "Dense");
                              ("config", JObj [("units", JNum 2);
                                               ("activation", JStr "linear")])];
                        JObj [("class_name", JStr "Activation")]])])] =
      JObj [("config", JObj [("layers", JArr entries)])] /\
    Forall2 same_class_name items entries.
Proof. exact (compressConfig_keeps_layers dense_softmax _ eq_refl). Defined.

Lemma assoc_distinct (bindings : list (string * json)) (k : string) (v : json) :
  NoDup (map fst bindings) -> (k, v) ∈ bindings -> assoc k bindings = Some v.
Proof.
  induction bindings as [|[k' v'] bindings IH]; simpl; intros Hnd Hin.
  - by apply elem_of_nil in Hin.
  - apply NoDup_cons in Hnd as [Hk' Hnd].
    apply elem_of_cons in Hin as [[= -> ->]|Hin].
    + by rewrite String.eqb_refl.
    + destruct (String.eqb_spec k k') as [->|_]; [|by apply IH].
      destruct Hk'. apply list_elem_of_In, in_map_iff. exists (k', v).
      split; [done | by apply list_elem_of_In].
Qed.

Lemma pick_sub (bindings sub : list (string * json)) :
  Forall (fun kv => assoc (fst kv) bindings = Some (snd kv)) sub ->
  pick (JObj bindings) (map fst sub) = Ok sub.
Proof.
  induction 1 as [|[k v] sub Hkv Hsub IH]; simpl in *; [done|].
  by rewrite Hkv, IH.
Qed.

Lemma pick_self (bindings : list (string * json)) :
  NoDup (map fst bindings) -> pick (JObj bindings) (map fst bindings) = Ok bindings.
Proof.
  intros Hnd. apply pick_sub, Forall_forall. intros [k v] Hin.
  by apply assoc_distinct.
Qed.

(** Compressing an entry of a compressed configuration once more. *)
Lemma compress_entry_again (layer res : json) :
  compress_layer layer = Ok res ->
  (recognized layer /\ compress_layer res = Ok res) \/
  (~ recognized layer /\ compress_layer res = Err KeyError).
Proof.
  unfold compress_layer at 1. intros H.
  apply bind_Ok in H as (cfg & _ & H).
  apply bind_Ok in H as (cn & Hcn & H).
  apply bind_Ok in H as (lc & Hlc & H).
  rewrite layer_config_dispatch in Hlc.
  destruct (documented_keys cn) as [keys|] eqn:Hkeys.
  - left. split; [by exists cn, keys|].
    apply bind_Ok in Hlc as (c & Hc & [= <-]). injection H as <-.
    apply pick_Ok in Hc as [Hfst _].
    unfold compress_layer. simpl. rewrite layer_config_dispatch, Hkeys. simpl.
    rewrite <- Hfst, pick_self; [done|].
    rewrite Hfst. by apply (whitelist_keys_distinct cn).
  - right. injection Hlc as <-. injection H as <-. split; [|reflexivity].
    intros (cn' & keys & Hcn' & Hk). congruence.
Qed.

Lemma compress_entries_again (items entries : list json) :
  Forall2 (fun l r => compress_layer l = Ok r) items entries ->
  (Forall recognized items /\ compress_layers entries = Ok entries) \/
  (~ Forall recognized items /\ compress_layers entries = Err KeyError).
Proof.
  induction 1 as [|l r items entries Hlr _ IH]; [left; by split|].
  simpl. destruct (compress_entry_again _ _ Hlr) as [[Hrec ->]|[Hrec ->]].
  - simpl. destruct IH as [[Hall ->]|[Hall ->]].
    + left. split; [by constructor | done].
    + right. split; [|done]. intros Hf. apply Forall_cons in Hf as [_ Hf]. tauto.
  - right. split; [|done]. intros Hf. apply Forall_cons in Hf as [Hf _]. tauto.
Qed.

(** X16: compressing a compressed configuration again returns it unchanged
    when every layer is of a recognized kind, and raises KeyError otherwise:
    the entry of an unrecognized kind has no "config" key to read. *)
Theorem compressConfig_again (data config layers res : json) (items : list json) :
  py_getitem data "config" = Ok config ->
  py_getitem config "layers" = Ok layers ->
  py_iter layers = Ok items ->
  compressConfig data = Ok res ->
  (Forall recognized items /\ compressConfig res = Ok res) \/
  (~ Forall recognized items /\ compressConfig res = Err KeyError).
Proof.
  intros Hc Hl Hi H. unfold compressConfig in H. rewrite Hc in H. simpl in H.
  rewrite Hl in H. simpl in H. rewrite Hi in H. simpl in H.
  apply bind_Ok in H as (entries & He & [= <-]).
  apply compress_layers_Forall2, compress_entries_again in He.
  unfold compressConfig. simpl.
  destruct He as [[Hall ->]|[Hall ->]]; [left | right]; by split.
Qed.

Lemma compressConfig_again_witness :
  (Forall recognized
     [JObj [("class_name", JStr "Dense");
            ("config",
             JObj [("name", JStr "dense");
                   ("trainable", JBool true);
                   ("units", JNum 2);
                   ("activation", JStr "linear");
                   ("use_bias", JBool true)])];
      JObj [("class_name", JStr "Activation");
            ("config",
             JObj [("name", JStr "activation");
                   ("activation", JStr "softmax")])]] /\
   compressConfig
     (JObj [("config",
             JObj [("layers",
                    JArr [JObj [("class_name", JStr "Dense");
                                ("config", JObj [("units", JNum 2);
                                                 ("activation", JStr "linear")])];
                          JObj [("class_name", JStr "Activation")]])])]) =
   Ok (JObj [("config",
              JObj [("layers",
                     JArr [JObj [("class_name", JStr "Dense");
                                 ("config", JObj [("units", JNum 2);
                                                  ("activation", JStr "linear")])];
                           JObj [("class_name", JStr "Activation")]])])])) \/
  (~ Forall recognized
     [JObj [("class_name", JStr "Dense");
            ("config",
             JObj [("name", JStr "dense");
                   ("trainable", JBool true);
                   ("units", JNum 2);
                   ("activation", JStr "linear");
                   ("use_bias", JBool true)])];
      JObj [("class_name", JStr "Activation");
            ("config",
             JObj [("name", JStr "activation");
                   ("activation", JStr "softmax")])]] /\
   compressConfig
     (JObj [("config",
             JObj [("layers",
                    JArr [JObj [("class_name", JStr "Dense");
                                ("config", JObj [("units", JNum 2);
                                                 ("activation", JStr "linear")])];
                          JObj [("class_name", JStr "Activation")]])])]) =
   Err KeyError).
Proof.
  exact (compressConfig_again dense_softmax _ _ _ _ eq_refl eq_refl eq_refl eq_refl).
Defined.

End CompressConfig.

(** ** Training windows *)

Section Vocabulary.

Lemma existsb_eqb (x : string) (l : list string) :
  existsb (String.eqb x) l = true <-> x ∈ l.
Proof.
  rewrite existsb_exists. split.
  - intros (y & Hy & He). apply String.eqb_eq in He as ->. by apply list_elem_of_In.
  - intros H. exists x. split; [by apply list_elem_of_In | apply String.eqb_refl].
Qed.

Lemma py_set_elem_of (x : string) (notes : list string) :
  x ∈ py_set notes <-> x ∈ notes.
Proof.
  induction notes as [|y t IH]; simpl; [done|].
  destruct (existsb (String.eqb y) t) eqn:Hy.
  - apply existsb_eqb in Hy. rewrite IH, elem_of_cons. split; [auto|].
    intros [->|H]; done.
  - by rewrite !elem_of_cons, IH.
Qed.

Lemma py_set_NoDup (notes : list string) : NoDup (py_set notes).
Proof.
  induction notes as [|y t IH]; simpl; [constructor|].
  destruct (existsb (String.eqb y) t) eqn:Hy; [done|].
  constructor; [|done]. rewrite py_set_elem_of. intros H.
  apply existsb_eqb in H. congruence.
Qed.

Lemma insert_sorted_perm (s : string) (l : list string) :
  insert_sorted s l ≡ₚ s :: l.
Proof.
  induction l as [|x t IH]; simpl; [done|].
  destruct (str_leb s x); [done|]. rewrite IH. apply Permutation_swap.
Qed.

Lemma sorted_perm (l : list string) : sorted l ≡ₚ l.
Proof.
  induction l as [|x t IH]; simpl; [done|].
  by rewrite insert_sorted_perm, IH.
Qed.

Lemma str_leb_false (a b : string) :
  str_leb a b = false -> String_as_OT.lt b a.
Proof.
  unfold str_leb. destruct (String_as_OT.compare_spec a b) as [|H|H]; try done.
Qed.

Lemma str_leb_true (a b : string) :
  str_leb a b = true -> a = b \/ String_as_OT.lt a b.
Proof.
  unfold str_leb. destruct (String_as_OT.compare_spec a b) as [|H|H]; auto.
  discriminate.
Qed.

Lemma insert_sorted_increasing (s : string) (l : list string) :
  s ∉ l -> StronglySorted String_as_OT.lt l ->
  StronglySorted String_as_OT.lt (insert_sorted s l).
Proof.
  intros Hs Hl. induction Hl as [|x t Ht IH Hx]; simpl.
  - constructor; constructor.
  - apply not_elem_of_cons in Hs as [Hne Hs].
    destruct (str_leb s x) eqn:Hle.
    + apply str_leb_true in Hle as [->|Hlt]; [done|].
      constructor; [by constructor|]. constructor; [done|].
      eapply Forall_impl; [exact Hx|]. intros z Hz.
      by transitivity x.
    + apply str_leb_false in Hle.
      constructor; [by apply IH|].
      rewrite insert_sorted_perm. by constructor.
Qed.

Lemma sorted_increasing (l : list string) :
  NoDup l -> StronglySorted String_as_OT.lt (sorted l).
Proof.
  induction 1 as [|x t Hx Hnd IH]; simpl; [constructor|].
  apply insert_sorted_increasing; [|done]. by rewrite sorted_perm.
Qed.

Lemma enumerate_from_keys (k : Z) (pitchnames : list string) :
  map fst (enumerate_from k pitchnames) = pitchnames.
Proof.
  revert k. induction pitchnames as [|x t IH]; intros k; simpl; [done|].
  by rewrite IH.
Qed.

Lemma dict_get_enumerate (k v : Z) (pitchnames : list string) (name : string) :
  NoDup pitchnames ->
  dict_get (enumerate_from k pitchnames) name = Ok v <->
  k <= v /\ pitchnames !! Z.to_nat (v - k) = Some name.
Proof.
  intros Hnd. revert k. induction Hnd as [|x t Hx Hnd IH]; intros k; simpl.
  - split; [discriminate | by intros [_ ?]].
  - destruct (String.eqb_spec name x) as [->|Hne].
    + split.
      * intros [= <-]. rewrite Z.sub_diag. split; [lia | done].
      * intros [Hk Hl]. destruct (Z.to_nat (v - k)) as [|j] eqn:Hj.
        -- f_equal. lia.
        -- simpl in Hl. apply list_elem_of_lookup_2 in Hl. done.
    + rewrite IH. split.
      * intros [Hk Hl]. split; [lia|].
        replace (Z.to_nat (v - k)) with (S (Z.to_nat (v - (k + 1)))) by lia.
        exact Hl.
      * intros [Hk Hl]. destruct (Z.to_nat (v - k)) as [|j] eqn:Hj.
        -- simpl in Hl. congruence.
        -- simpl in Hl. split; [lia|].
           by replace (Z.to_nat (v - (k + 1))) with j by lia.
Qed.

Lemma dict_get_known (note_to_int : list (string * Z)) (name : string) :
  name ∈ map fst note_to_int -> exists v, dict_get note_to_int name = Ok v.
Proof.
  induction note_to_int as [|[k v] rest IH]; simpl; intros H.
  - by apply elem_of_nil in H.
  - destruct (String.eqb_spec name k) as [|Hne]; [eauto|].
    apply elem_of_cons in H as [|H]; [done | by apply IH].
Qed.

End Vocabulary.

Section Windows.

Variable note_to_int : list (string * Z).
Variable notes : list string.
Variable sequence_length : nat.
Hypothesis known : forall x, x ∈ notes -> x ∈ map fst note_to_int.

Lemma to_ints_Forall2 (sequence_in : list string) (vs : list Z) :
  to_ints note_to_int sequence_in = Ok vs <->
  Forall2 (fun name v => dict_get note_to_int name = Ok v) sequence_in vs.
Proof.
  revert vs. induction sequence_in as [|x t IH]; intros vs; simpl.
  - split; [intros [= <-]; constructor | by inversion 1].
  - split.
    + intros H. apply bind_Ok in H as (v & Hv & H).
      apply bind_Ok in H as (vs' & Hvs & [= <-]).
      constructor; [done | by apply IH].
    + inversion 1 as [|? v ? vs' Hv Hvs]; subst.
      apply IH in Hvs. by rewrite Hv, Hvs.
Qed.

Lemma to_ints_returns (sequence_in : list string) :
  (forall x, x ∈ sequence_in -> x ∈ notes) ->
  exists vs, to_ints note_to_int sequence_in = Ok vs.
Proof.
  induction sequence_in as [|x t IH]; intros Hin; simpl; [eauto|].
  destruct (dict_get_known note_to_int x) as [v ->].
  { apply known, Hin, list_elem_of_here. }
  destruct IH as [vs ->]; [|simpl; eauto].
  intros y Hy. by apply Hin, list_elem_of_further.
Qed.

Lemma windows_from_spec (count i : nat) :
  ((0 < count)%nat -> (i + count + sequence_length <= length notes)%nat) ->
  exists inputs targets,
    windows_from note_to_int notes sequence_length count i = Ok (inputs, targets) /\
    length inputs = count /\ length targets = count /\
    forall m, (m < count)%nat ->
      exists input target,
        inputs !! m = Some input /\ targets !! m = Some target /\
        window_of note_to_int notes sequence_length (i + m) input target.
Proof.
  revert i. induction count as [|count IH]; intros i Hlen; simpl.
  - exists [], []. repeat split; intros; lia.
  - specialize (Hlen ltac:(lia)). unfold py_item.
    destruct (notes !! (i + sequence_length)%nat) as [name|] eqn:Hname;
      [|apply lookup_ge_None in Hname; lia].
    simpl.
    destruct (to_ints_returns (take sequence_length (drop i notes))) as [input Hin].
    { intros x Hx. apply elem_of_take in Hx as (j & Hx & _).
      rewrite lookup_drop in Hx. by apply list_elem_of_lookup_2 in Hx. }
    rewrite Hin. simpl.
    destruct (dict_get_known note_to_int name) as [target Ht].
    { by apply known, (list_elem_of_lookup_2 _ (i + sequence_length)). }
    rewrite Ht. simpl.
    destruct (IH (S i)) as (inputs & targets & -> & Hli & Hlt & Hw); [lia|].
    simpl. exists (input :: inputs), (target :: targets).
    split; [done|]. split; [simpl; lia|]. split; [simpl; lia|].
    intros [|m] Hm.
    + exists input, target. rewrite Nat.add_0_r. repeat split; try done.
      * by apply to_ints_Forall2.
      * by exists name.
    + destruct (Hw m) as (input' & target' & H1 & H2 & H3); [lia|].
      exists input', target'. simpl.
      replace (i + S m)%nat with (S i + m)%nat by lia. done.
Qed.

End Windows.

Section TrainingData.

Lemma pitchnames_known (notes : list string) (x : string) :
  x ∈ notes -> x ∈ map fst (enumerate_from 0 (sorted (py_set notes))).
Proof.
  intros H. rewrite enumerate_from_keys, sorted_perm. by apply py_set_elem_of.
Qed.

Lemma pitchnames_NoDup (notes : list string) : NoDup (sorted (py_set notes)).
Proof. rewrite sorted_perm. apply py_set_NoDup. Qed.

Lemma vocabulary_bounds (notes : list string) (note_to_int : list (string * Z))
      (name : string) (v : Z) :
  note_to_int = enumerate_from 0 (sorted (py_set notes)) ->
  dict_get note_to_int name = Ok v ->
  0 <= v < Z.of_nat (length (vocabulary note_to_int)).
Proof.
  intros -> H. apply (dict_get_enumerate 0 v _ name (pitchnames_NoDup notes)) in H.
  destruct H as [Hv Hl]. apply lookup_lt_Some in Hl.
  unfold vocabulary. rewrite enumerate_from_keys. lia.
Qed.

Lemma forallb_lengths (inputs : list (list Z)) (n : nat) :
  Forall (fun w => length w = n) inputs ->
  forallb (fun w => Nat.eqb (length w) n) inputs = true.
Proof.
  induction 1 as [|w t Hw _ IH]; simpl; [done|].
  by rewrite IH, Hw, Nat.eqb_refl.
Qed.

Lemma make_training_data_inv (notes : list string) (sequence_length : nat)
      (inputs : list (list (list Z))) (targets : list Z)
      (note_to_int : list (string * Z)) :
  make_training_data notes sequence_length = Ok (inputs, targets, note_to_int) ->
  note_to_int = enumerate_from 0 (sorted (py_set notes)) /\
  exists rows,
    windows_from note_to_int notes sequence_length
                 (length notes - sequence_length) 0 = Ok (rows, targets) /\
    inputs = map (map (fun v => [v])) rows.
Proof.
  unfold make_training_data, np_reshape. intros H.
  apply bind_Ok in H as ([rows ts] & Hw & H). simpl in H.
  destruct (forallb _ rows); [|discriminate].
  simpl in H. injection H as <- <- <-. split; [done|]. by exists rows.
Qed.

(** X17: the dictionary numbers the distinct note names 0, 1, 2, ... in
    increasing string order: its keys are exactly the names that occur in
    [notes], strictly increasing, and a name has code [v] exactly when it is
    the [v]-th key.  So the codes are distinct, below the vocabulary size,
    and ordered like the names. *)
Theorem vocabulary_numbering (notes : list string) (sequence_length : nat)
        (inputs : list (list (list Z))) (targets : list Z)
        (note_to_int : list (string * Z)) :
  make_training_data notes sequence_length = Ok (inputs, targets, note_to_int) ->
  StronglySorted String_as_OT.lt (vocabulary note_to_int) /\
  (forall name, name ∈ vocabulary note_to_int <-> name ∈ notes) /\
  (forall name v, dict_get note_to_int name = Ok v <->
                  0 <= v /\ vocabulary note_to_int !! Z.to_nat v = Some name).
Proof.
  intros H. apply make_training_data_inv in H as [-> _].
  unfold vocabulary. rewrite enumerate_from_keys. split; [|split].
  - apply sorted_increasing, py_set_NoDup.
  - intros name. by rewrite sorted_perm, py_set_elem_of.
  - intros name v. rewrite (dict_get_enumerate 0 v _ name (pitchnames_NoDup notes)).
    by rewrite Z.sub_0_r.
Qed.

Lemma vocabulary_numbering_witness :
  StronglySorted String_as_OT.lt
    (vocabulary [("B-3", 0); ("C4", 1); ("E4", 2)]%string) /\
  (forall name, name ∈ vocabulary [("B-3", 0); ("C4", 1); ("E4", 2)]%string <->
                name ∈ ["E4"; "C4"; "E4"; "B-3"; "C4"]%string) /\
  (forall name v,
     dict_get [("B-3", 0); ("C4", 1); ("E4", 2)]%string name = Ok v <->
     0 <= v /\
     vocabulary [("B-3", 0); ("C4", 1); ("E4", 2)]%string !! Z.to_nat v = Some name).
Proof.
  exact (vocabulary_numbering ["E4"; "C4"; "E4"; "B-3"; "C4"]%string 2
           _ _ _ eq_refl).
Defined.

(** X18: on any list of note names and any sequence length the windowing
    returns: no lookup fails.  There is one window per position that leaves
    room for a target, [len(notes) - sequence_length] of them (none when the
    list is too short), each of [sequence_length] codes, and as many
    targets. *)
Theorem make_training_data_returns (notes : list string) (sequence_length : nat) :
  exists inputs targets note_to_int,
    make_training_data notes sequence_length = Ok (inputs, targets, note_to_int) /\
    length inputs = (length notes - sequence_length)%nat /\
    length targets = (length notes - sequence_length)%nat /\
    Forall (fun w => length w = sequence_length) inputs.
Proof.
  destruct (windows_from_spec (enumerate_from 0 (sorted (py_set notes))) notes
              sequence_length (pitchnames_known notes)
              (length notes - sequence_length) 0)
    as (rows & targets & Hw & Hlr & Hlt & Hwin); [lia|].
  assert (Hall : Forall (fun w => length w = sequence_length) rows).
  { apply Forall_forall. intros w Hin.
    apply list_elem_of_lookup_1 in Hin as [m Hm].
    destruct (Hwin m) as (input & target & Hi & _ & [Hf _]).
    { apply lookup_lt_Some in Hm. lia. }
    rewrite Hm in Hi. injection Hi as <-.
    apply Forall2_length in Hf. rewrite <- Hf, length_take, length_drop.
    apply lookup_lt_Some in Hm. lia. }
  exists (map (map (fun v => [v])) rows), targets,
         (enumerate_from 0 (sorted (py_set notes))).
  split; [|split; [by rewrite length_map | split; [done|]]].
  - unfold make_training_data, np_reshape. rewrite Hw. simpl.
    by rewrite (forallb_lengths _ _ Hall).
  - apply Forall_forall. intros w Hin.
    apply list_elem_of_In, in_map_iff in Hin as (r & <- & Hr).
    rewrite length_map. rewrite Forall_forall in Hall.
    by apply Hall, list_elem_of_In.
Qed.

(** X19: window [m] holds the codes of [notes[m .. m+sequence_length-1]],
    each in a row of its own, and target [m] is the code of
    [notes[m+sequence_length]], the name that follows the window; every code
    is an index into the vocabulary. *)
Theorem training_window (notes : list string) (sequence_length m j : nat)
        (inputs : list (list (list Z))) (targets : list Z)
        (note_to_int : list (string * Z)) :
  make_training_data notes sequence_length = Ok (inputs, targets, note_to_int) ->
  (m + sequence_length < length notes)%nat -> (j < sequence_length)%nat ->
  exists window name v next target,
    inputs !! m = Some window /\ window !! j = Some [v] /\
    notes !! (m + j)%nat = Some name /\ dict_get note_to_int name = Ok v /\
    0 <= v < Z.of_nat (length (vocabulary note_to_int)) /\
    targets !! m = Some target /\
    notes !! (m + sequence_length)%nat = Some next /\
    dict_get note_to_int next = Ok target /\
    0 <= target < Z.of_nat (length (vocabulary note_to_int)).
Proof.
  intros H Hm Hj.
  destruct (make_training_data_inv _ _ _ _ _ H) as (Hd & rows & Hw & ->).
  destruct (windows_from_spec note_to_int notes sequence_length
              ltac:(rewrite Hd; apply pitchnames_known)
              (length notes - sequence_length) 0)
    as (rows' & targets' & Hw' & _ & _ & Hwin); [lia|].
  rewrite Hw in Hw'. injection Hw' as <- <-.
  destruct (Hwin m) as (input & target & Hi & Ht & Hf & next & Hnext & Hdn); [lia|].
  simpl in Hf, Hnext.
  assert (Hname : exists name, take sequence_length (drop m notes) !! j = Some name).
  { apply lookup_lt_is_Some_2. rewrite length_take, length_drop. lia. }
  destruct Hname as [name Hname].
  destruct (Forall2_lookup_l _ _ _ _ _ Hf Hname) as (v & Hv & Hdv).
  rewrite lookup_take_lt, lookup_drop in Hname by done.
  assert (Hrange : forall name v, dict_get note_to_int name = Ok v ->
                     0 <= v < Z.of_nat (length (vocabulary note_to_int))).
  { intros n' v' Hg. by apply (vocabulary_bounds notes note_to_int n' v'). }
  exists (map (fun v => [v]) input), name, v, next, target.
  split; [by rewrite lookup_map, Hi|]. split; [by rewrite lookup_map, Hv|].
  split; [done|]. split; [done|]. split; [by apply (Hrange name)|].
  split; [done|]. split; [done|]. split; [done | by apply (Hrange next)].
Qed.


Lemma training_window_witness :
  exists window name v next target,
    [[[2]; [1]]; [[1]; [2]]; [[2]; [0]]] !! 1%nat = Some window /\
    window !! 0%nat = Some [v] /\
    ["E4"; "C4"; "E4"; "B-3"; "C4"]%string !! (1 + 0)%nat = Some name /\
    dict_get [("B-3", 0); ("C4", 1); ("E4", 2)]%string name = Ok v /\
    0 <= v < Z.of_nat (length (vocabulary [("B-3", 0); ("C4", 1); ("E4", 2)]%string)) /\
    [2; 0; 1] !! 1%nat = Some target /\
    ["E4"; "C4"; "E4"; "B-3"; "C4"]%string !! (1 + 2)%nat = Some next /\
    dict_get [("B-3", 0); ("C4", 1); ("E4", 2)]%string next = Ok target /\
    0 <= target < Z.of_nat (length (vocabulary [("B-3", 0); ("C4", 1); ("E4", 2)]%string)).
Proof.
  apply (training_window ["E4"; "C4"; "E4"; "B-3"; "C4"]%string 2 1 0 _ _ _ eq_refl);
    simpl; lia.
Defined.

End TrainingData.

(** ** Encoding, then decoding *)

Section SortedLists.

Lemma increasing_NoDup (l : list Z) : StronglySorted Z.lt l -> NoDup l.
Proof.
  induction 1 as [|a l Hs IH Ha]; constructor; [|done].
  intros Hin. rewrite Forall_forall in Ha. specialize (Ha a Hin). lia.
Qed.

Lemma increasing_lookup (l : list Z) (i j : nat) (a b : Z) :
  StronglySorted Z.lt l -> l !! i = Some a -> l !! j = Some b ->
  (i < j)%nat -> a < b.
Proof.
  intros Hs. revert i j. induction Hs as [|x l Hs IH Hx]; intros i j; [done|].
  destruct i as [|i], j as [|j]; simpl; try lia.
  - intros [= ->] Hb _. rewrite Forall_forall in Hx.
    by apply Hx, (list_elem_of_lookup_2 _ j).
  - intros Ha Hb Hij. apply (IH i j Ha Hb). lia.
Qed.

(** In an increasing list the entry after [a] is the least member above
    [a]. *)
Lemma increasing_next (l : list Z) (i : nat) (a b : Z) :
  StronglySorted Z.lt l -> l !! i = Some a -> b ∈ l -> a < b ->
  (forall c, c ∈ l -> ~ (a < c < b)) -> l !! S i = Some b.
Proof.
  intros Hs Ha Hb Hab Hnone.
  apply list_elem_of_lookup_1 in Hb as [j Hj].
  destruct (lt_eq_lt_dec j (S i)) as [[Hlt|Heq]|Hgt]; [|by subst|].
  - destruct (decide (j = i)) as [->|Hne]; [rewrite Ha in Hj; injection Hj as ->; lia|].
    pose proof (increasing_lookup l j i b a Hs Hj Ha ltac:(lia)). lia.
  - assert (Hc : is_Some (l !! S i)).
    { apply lookup_lt_is_Some. apply lookup_lt_Some in Hj. lia. }
    destruct Hc as [c Hc].
    pose proof (increasing_lookup l i (S i) a c Hs Ha Hc ltac:(lia)).
    pose proof (increasing_lookup l (S i) j c b Hs Hc Hj ltac:(lia)).
    destruct (Hnone c); [by apply (list_elem_of_lookup_2 _ (S i)) | lia].
Qed.

End SortedLists.

Section FrameRow.

(** Row [i] of the decoder's frame, read off the kept indices. *)
Lemma frame_row (note_array : list Z) (i : nat) (k : Z) :
  originalIndex note_array !! i = Some k ->
  exists c d,
    noteArrayToDataFrame note_array !! i = Some (c, d) /\
    note_array !! Z.to_nat k = Some c /\
    match originalIndex note_array !! S i with
    | Some k' => (d == inject_Z (k' - k) * (1 # 4))%Q
    | None => d = (1 # 4)%Q
    end.
Proof.
  intros Hk. unfold noteArrayToDataFrame. rewrite kept_duration.
  destruct (durations_lookup _ _ _ Hk) as (d & Hd & Hnext).
  unfold originalIndex in Hk. rewrite lookup_map in Hk.
  destruct (events note_array !! i) as [r|] eqn:Hr; [|discriminate].
  injection Hk as <-. exists (code r), d. split; [|split; [|exact Hnext]].
  - apply lookup_zip; [|exact Hd]. by rewrite lookup_map, Hr.
  - apply list_elem_of_lookup_2, list_elem_of_filter in Hr as [_ Hr].
    apply frame_from_elem in Hr as (_ & _ & Hc). by rewrite Z.sub_0_r in Hc.
Qed.

Lemma frame_row_index (note_array : list Z) (i : nat) (c : Z) (d : Q) :
  noteArrayToDataFrame note_array !! i = Some (c, d) ->
  exists k, originalIndex note_array !! i = Some k.
Proof.
  intros H. apply lookup_lt_is_Some.
  apply lookup_lt_Some in H.
  destruct (frame_columns note_array) as [_ Hs].
  rewrite <- (length_map snd), Hs, durations_length in H. done.
Qed.

End FrameRow.


Section MelodyArray.

Variable df : list row.
Variable t : Z.
Hypothesis melody : monophonic df t.
Hypothesis one_per_tick : forall n, n ∈ df -> select df (pos n) = [n].

Lemma melody_row (n : row) :
  n ∈ df -> 0 <= pos n < t /\ 1 <= dur n /\ pos n + dur n <= t /\
            0 <= pitch n <= 127.
Proof. intros Hn. destruct melody as [Hm _]. specialize (Hm n Hn). lia. Qed.

Lemma melody_pitch (n : row) : n ∈ df -> left_at_onset n = pitch n.
Proof.
  intros Hn. destruct (melody_row n Hn) as (_ & Hd & _ & Hp).
  unfold left_at_onset, int16.
  destruct (Z.eqb_spec (dur n) 0); [lia|]. rewrite Z.mod_small; lia.
Qed.

Lemma visited_onset_elem (j : Z) (n : row) :
  visited_onset df t j = Some n -> n ∈ df /\ pos n = j.
Proof.
  unfold visited_onset. destruct (select df j) as [|m rest] eqn:Hs; [done|].
  destruct (_ && _); [|done]. intros [= <-].
  assert (Hm : m ∈ select df j) by (rewrite Hs; apply list_elem_of_here).
  apply list_elem_of_filter in Hm as [Hp Hm]. done.
Qed.

Lemma onset_value (n : row) : n ∈ df -> encoded_value df t (pos n) = pitch n.
Proof.
  intros Hn. destruct (melody_row n Hn) as (Hp & _).
  unfold encoded_value, visited_onset. rewrite (one_per_tick n Hn).
  destruct (0 <=? pos n) eqn:H1; [|apply Z.leb_gt in H1; lia].
  destruct (pos n <? t) eqn:H2; [|apply Z.ltb_ge in H2; lia].
  simpl. by apply melody_pitch.
Qed.

Lemma end_value (n : row) :
  n ∈ df -> encoded_value df t (pos n + dur n) <> MELODY_NO_EVENT.
Proof.
  intros Hn. destruct (melody_row n Hn) as (Hp & Hd & _).
  unfold encoded_value.
  destruct (visited_onset df t (pos n + dur n)) as [m|] eqn:Hv.
  - apply visited_onset_elem in Hv as [Hm _]. rewrite (melody_pitch m Hm).
    destruct (melody_row m Hm) as (_ & _ & _ & Hpm). unfold MELODY_NO_EVENT. lia.
  - assert (He : ends_at df t (pos n + dur n) = true).
    { apply ends_at_true. exists n. split; [done | lia]. }
    by rewrite He.
Qed.

Lemma event_inv (j : Z) :
  encoded_value df t j <> MELODY_NO_EVENT ->
  (exists n, n ∈ df /\ pos n = j /\ encoded_value df t j = pitch n) \/
  (exists n, n ∈ df /\ pos n + dur n = j /\
             encoded_value df t j = MELODY_NOTE_OFF).
Proof.
  unfold encoded_value.
  destruct (visited_onset df t j) as [m|] eqn:Hv.
  - intros _. left. apply visited_onset_elem in Hv as [Hm Hp].
    exists m. split; [done|]. split; [done | by apply melody_pitch].
  - destruct (ends_at df t j) eqn:He; [|done].
    intros _. right. apply ends_at_true in He as (n & Hn & _ & Hp).
    exists n. by split.
Qed.

(** Nothing happens strictly inside a note. *)
Lemma quiet_inside (n : row) (j : Z) :
  n ∈ df -> pos n < j < pos n + dur n ->
  encoded_value df t j = MELODY_NO_EVENT.
Proof.
  intros Hn Hj. destruct melody as [_ Hno].
  destruct (Z.eq_dec (encoded_value df t j) MELODY_NO_EVENT) as [|Hne]; [done|].
  exfalso. apply event_inv in Hne as [(m & Hm & Hp & _)|(m & Hm & Hp & _)].
  - specialize (Hno n m Hn Hm). lia.
  - destruct (melody_row m Hm) as (_ & Hd & _).
    destruct (Z.lt_trichotomy (pos m) (pos n)) as [Hlt|[Heq|Hgt]].
    + specialize (Hno m n Hm Hn Hlt). lia.
    + pose proof (one_per_tick m Hm) as H1. rewrite Heq, (one_per_tick n Hn) in H1.
      injection H1 as ->. lia.
    + specialize (Hno n m Hn Hm Hgt). lia.
Qed.

End MelodyArray.

Section RoundTrip.

Variable stream : list element.
Variable df : list row.
Variable output : list Z.
Hypothesis timed : well_timed stream.
Hypothesis frame : note_frame stream = Ok df.
Hypothesis melody : monophonic df (total_length stream).
Hypothesis encoded : streamToNoteArray stream = Ok output.

Lemma output_at (j : Z) :
  0 <= j <= total_length stream ->
  output !! Z.to_nat j = Some (encoded_value df (total_length stream) j).
Proof. by apply encoder_entry. Qed.

Lemma kept_index (k : Z) :
  k ∈ originalIndex output <->
  0 <= k <= total_length stream /\
  encoded_value df (total_length stream) k <> MELODY_NO_EVENT.
Proof.
  pose proof (encoder_length _ _ encoded) as Hlen.
  rewrite originalIndex_elem. split.
  - intros (Hk & c & Hc & Hne).
    assert (Hr : 0 <= k <= total_length stream).
    { apply lookup_lt_Some in Hc. lia. }
    split; [done|]. rewrite (output_at k Hr) in Hc. by injection Hc as ->.
  - intros (Hk & Hne). split; [lia|]. eauto using output_at.
Qed.

(** The row decoded for a retained note. *)
Lemma decoded_note (n : row) :
  n ∈ df ->
  exists i d,
    originalIndex output !! i = Some (pos n) /\
    noteArrayToDataFrame output !! i = Some (pitch n, d) /\
    (d == inject_Z (dur n) * (1 # 4))%Q.
Proof.
  intros Hn.
  pose proof (note_frame_one_per_tick _ _ frame) as Hone.
  destruct (melody_row df _ melody n Hn) as (Hp & Hd & He & Hm).
  assert (Hk : pos n ∈ originalIndex output).
  { apply kept_index. split; [lia|].
    rewrite (onset_value df _ melody Hone n Hn). unfold MELODY_NO_EVENT. lia. }
  apply list_elem_of_lookup_1 in Hk as [i Hi].
  destruct (frame_row output i (pos n) Hi) as (c & d & Hrow & Hc & Hnext).
  rewrite output_at, (onset_value df _ melody Hone n Hn) in Hc by lia.
  injection Hc as <-.
  exists i, d. split; [done|]. split; [done|].
  rewrite (increasing_next (originalIndex output) i (pos n) (pos n + dur n)
             (originalIndex_sorted output) Hi) in Hnext.
  - rewrite Hnext. by replace (pos n + dur n - pos n) with (dur n) by lia.
  - apply kept_index. split; [lia|]. by apply (end_value df _ melody).
  - lia.
  - intros c Hc Hin. apply kept_index in Hc as [_ Hc].
    by rewrite (quiet_inside df _ melody Hone n c Hn Hin) in Hc.
Qed.

End RoundTrip.

(** X20: encoding a melody and decoding the array gives back every retained
    note with its pitch and its quantized duration, at the index of its onset
    tick, and every decoded row other than a NOTE_OFF is such a note.  This
    holds for a stream whose retained rows start at a tick that is not
    negative, do not overlap, last at least one tick, end within the total
    length and have MIDI pitches; the encoder then returns an array. *)
Theorem encode_decode_notes (stream : list element) (df : list row) :
  well_timed stream -> note_frame stream = Ok df ->
  monophonic df (total_length stream) ->
  exists output,
    streamToNoteArray stream = Ok output /\
    (forall n, n ∈ df ->
       exists i d,
         originalIndex output !! i = Some (pos n) /\
         noteArrayToDataFrame output !! i = Some (pitch n, d) /\
         (d == inject_Z (dur n) * (1 # 4))%Q) /\
    (forall i c d,
       noteArrayToDataFrame output !! i = Some (c, d) ->
       c <> MELODY_NOTE_OFF ->
       exists n, n ∈ df /\ originalIndex output !! i = Some (pos n) /\
                 c = pitch n /\ (d == inject_Z (dur n) * (1 # 4))%Q).
Proof.
  intros Hw Hf Hm.
  destruct (encoder_returns_when stream df Hw Hf) as [output Hout].
  { intros n Hn _. destruct Hm as [Hm _]. specialize (Hm n Hn). lia. }
  exists output. split; [done|]. split.
  - intros n Hn. by apply (decoded_note stream df output).
  - intros i c d Hrow Hc.
    destruct (frame_row_index _ _ _ _ Hrow) as [k Hk].
    destruct (frame_row output i k Hk) as (c' & d' & Hrow' & Hc' & _).
    rewrite Hrow in Hrow'. injection Hrow' as <- <-.
    assert (Hin : k ∈ originalIndex output) by by apply (list_elem_of_lookup_2 _ i).
    apply (kept_index stream df output Hw Hf Hout) in Hin as [Hr Hne].
    rewrite (output_at stream df output Hw Hf Hout k Hr) in Hc'.
    injection Hc' as Hval.
    destruct (event_inv df _ Hm k Hne) as [(n & Hn & Hp & Hv)|(n & _ & _ & Hv)];
      [|congruence].
    exists n. split; [done|]. split; [by rewrite Hp|]. split; [congruence|].
    destruct (decoded_note stream df output Hw Hf Hm Hout n Hn)
      as (i' & d' & Hi' & Hrow' & Hd').
    rewrite Hp in Hi'.
    pose proof (NoDup_lookup _ _ _ _ (increasing_NoDup _ (originalIndex_sorted output))
                  Hk Hi') as <-.
    rewrite Hrow in Hrow'. by injection Hrow' as _ ->.
Qed.

Lemma encode_decode_notes_witness :
  exists output,
    streamToNoteArray three_quarters = Ok output /\
    (forall n, n ∈ [Row 0 4 60; Row 4 4 62; Row 8 4 64] ->
       exists i d,
         originalIndex output !! i = Some (pos n) /\
         noteArrayToDataFrame output !! i = Some (pitch n, d) /\
         (d == inject_Z (dur n) * (1 # 4))%Q) /\
    (forall i c d,
       noteArrayToDataFrame output !! i = Some (c, d) ->
       c <> MELODY_NOTE_OFF ->
       exists n, n ∈ [Row 0 4 60; Row 4 4 62; Row 8 4 64] /\
                 originalIndex output !! i = Some (pos n) /\
                 c = pitch n /\ (d == inject_Z (dur n) * (1 # 4))%Q).
Proof.
  assert (Hw : well_timed three_quarters) by timed.
  apply (encode_decode_notes three_quarters [Row 0 4 60; Row 4 4 62; Row 8 4 64]
           Hw eq_refl).
  split.
  - intros n Hn.
    repeat (apply elem_of_cons in Hn as [->|Hn]; [by vm_compute|]).
    by apply elem_of_nil in Hn.
  - intros n m Hn Hm.
    repeat (apply elem_of_cons in Hn as [->|Hn];
            [repeat (apply elem_of_cons in Hm as [->|Hm]; [simpl; lia|]);
             by apply elem_of_nil in Hm|]).
    by apply elem_of_nil in Hn.
Defined.

Section MelodyOnGrid.

Lemma extract_sounding (stream : list element) (rows : list row) (r : row) :
  extract stream = Ok rows -> r ∈ rows ->
  exists e, e ∈ stream /\ sounding e /\
    pos r = np_round (offset e / grid) /\
    dur r = np_round (quarterLength e / grid) /\
    match e with
    | Note _ _ m => pitch r = m
    | Chord _ _ ps => last ps = Some (pitch r)
    | Other _ _ => False
    end.
Proof.
  intros He Hr. destruct (extract_elem _ _ _ He Hr) as (e & Hin & Hp & Hd & Hm).
  exists e. split; [done|]. split; [by destruct e|]. done.
Qed.

Lemma on_grid_le (p q : Q) (kp kq : Z) :
  (p == inject_Z kp * grid)%Q -> (q == inject_Z kq * grid)%Q ->
  (p <= q)%Q <-> kp <= kq.
Proof.
  intros -> ->. unfold Qle, grid. simpl. lia.
Qed.

(** X21: for a melody written on the grid the retained rows form a frame
    that the array can hold: they satisfy the condition under which encoding
    and decoding give the notes back. *)
Theorem melody_on_grid_monophonic (stream : list element) (df : list row) :
  melody_on_grid stream -> note_frame stream = Ok df ->
  monophonic df (total_length stream).
Proof.
  intros (Hg & Hm & Hs & Hno) Hf.
  unfold grid_aligned in Hg. rewrite Forall_forall in Hg.
  unfold midi_pitches in Hm. rewrite Forall_forall in Hm.
  assert (Hrow : forall n, n ∈ df ->
            exists e ko kd, e ∈ stream /\ sounding e /\
              (offset e == inject_Z ko * grid)%Q /\
              (quarterLength e == inject_Z kd * grid)%Q /\
              pos n = ko /\ dur n = kd /\ 0 <= pitch n <= 127).
  { intros n Hn. destruct (note_frame_elem _ _ _ Hf Hn) as (rows & He & Hr).
    destruct (extract_sounding _ _ _ He Hr) as (e & Hin & Hse & Hp & Hd & Hpitch).
    destruct (Hg e Hin) as [[ko Hko] [kd Hkd]].
    exists e, ko, kd. rewrite Hp, Hd, (ticks_on_grid _ _ Hko), (ticks_on_grid _ _ Hkd).
    repeat (split; [done|]). specialize (Hm e Hin).
    destruct e as [o d m|o d ps|o d]; [by subst | | done].
    rewrite Forall_forall in Hm. by apply Hm, last_Some_elem_of. }
  split.
  - intros n Hn. destruct (Hrow n Hn) as (e & ko & kd & Hin & Hse & Hko & Hkd & -> & -> & Hp).
    destruct (Hs e Hin Hse) as [Ho Hd].
    assert (H0 : (0 == inject_Z 0 * grid)%Q) by reflexivity.
    assert (H1 : (grid == inject_Z 1 * grid)%Q) by reflexivity.
    apply (on_grid_le _ _ _ _ H0 Hko) in Ho.
    apply (on_grid_le _ _ _ _ H1 Hkd) in Hd.
    split; [done|]. split; [done|]. split; [|done].
    assert (Hsum : (offset e + quarterLength e == inject_Z (ko + kd) * grid)%Q).
    { rewrite Hko, Hkd, inject_Z_plus. ring. }
    rewrite <- (ticks_on_grid _ _ Hsum). unfold total_length.
    apply ticks_mono. by apply highestTime_upper.
  - intros n m Hn Hm' Hlt.
    destruct (Hrow n Hn) as (e1 & k1 & d1 & Hin1 & Hs1 & Hk1 & Hd1 & Hp1 & Hu1 & _).
    destruct (Hrow m Hm') as (e2 & k2 & d2 & Hin2 & Hs2 & Hk2 & Hd2 & Hp2 & Hu2 & _).
    rewrite Hp1, Hu1, Hp2 in *.
    assert (Hoff : (offset e1 < offset e2)%Q).
    { apply Qnot_le_lt. intros Hle.
      apply (on_grid_le _ _ _ _ Hk2 Hk1) in Hle. lia. }
    specialize (Hno e1 e2 Hin1 Hin2 Hs1 Hs2 Hoff).
    assert (Hsum : (offset e1 + quarterLength e1 == inject_Z (k1 + d1) * grid)%Q).
    { rewrite Hk1, Hd1, inject_Z_plus. ring. }
    by apply (on_grid_le _ _ _ _ Hsum Hk2) in Hno.
Qed.

Lemma melody_on_grid_monophonic_witness :
  monophonic [Row 0 4 60; Row 4 4 62; Row 8 4 64] (total_length three_quarters).
Proof.
  apply (melody_on_grid_monophonic three_quarters); [|reflexivity].
  split; [|split; [|split]].
  - unfold grid_aligned, three_quarters.
    repeat (constructor;
            [split; [first [by exists 0 | by exists 4 | by exists 8]
                    | by exists 4]|]).
    constructor.
  - unfold midi_pitches, three_quarters. repeat (constructor; [lia|]). constructor.
  - intros e He _.
    repeat (apply elem_of_cons in He as [->|He]; [by vm_compute|]).
    by apply elem_of_nil in He.
  - intros e1 e2 He1 He2 _ _.
    repeat (apply elem_of_cons in He1 as [->|He1];
            [repeat (apply elem_of_cons in He2 as [->|He2]; [by vm_compute|]);
             by apply elem_of_nil in He2|]).
    by apply elem_of_nil in He1.
Defined.

End MelodyOnGrid.

(** ** The size of the exported weights *)

Section Base64.

Lemma b64encode_length_below (n : nat) (bytes : list Z) :
  (length bytes < n)%nat ->
  String.length (b64encode bytes) = (4 * ((length bytes + 2) / 3))%nat.
Proof.
  revert bytes. induction n as [|n IH]; intros bytes Hn; [lia|].
  destruct bytes as [|a [|b [|c rest]]]; try reflexivity.
  cbn [b64encode String.length length]. rewrite IH by (simpl in Hn; lia).
  replace (S (S (S (length rest))) + 2)%nat with (length rest + 2 + 1 * 3)%nat by lia.
  rewrite Nat.div_add by lia. lia.
Qed.

Lemma b64encode_length (bytes : list Z) :
  String.length (b64encode bytes) = (4 * ((length bytes + 2) / 3))%nat.
Proof. apply (b64encode_length_below (S (length bytes))). lia. Qed.

(** X22: the base64 text of an export has four characters for every three
    bytes of the buffer, rounded up, and the buffer has four bytes per weight
    value: the text is [4 * ceil(4 n / 3)] characters long for [n] values. *)
Theorem export_base64_length (model : keras_model) (e : export) :
  get_model_for_export model = Ok e ->
  String.length (weight_base64 e) =
  (4 * ((4 * length (weight_values (get_weights model)) + 2) / 3))%nat.
Proof.
  unfold get_model_for_export. intros H.
  apply bind_Ok in H as (cc & _ & [= <-]). simpl.
  rewrite b64encode_length, pack_weights_values.
  by rewrite (flat_map_length_const struct_pack_f 4 _ struct_pack_f_length).
Qed.

Lemma export_base64_length_witness :
  String.length "AACAPwAAgD8AAAAAAAAAAA==" =
  (4 * ((4 * length (weight_values (get_weights small_model)) + 2) / 3))%nat.
Proof. exact (export_base64_length small_model _ eq_refl). Defined.

End Base64.
